(** * giacrs: the C-callable boundary around the giac computer-algebra library

    A shallow embedding of [src/wrapper/utils.hpp], [src/wrapper/gen.cpp],
    [src/wrapper/context.cpp] and [src/wrapper/options.cpp].

    The wrapper owns no algorithm: each [extern "C"] function dereferences its
    handles, calls one function of giac, stores the result through an output
    pointer and turns a [std::runtime_error] into a C string.  The embedding
    therefore has three layers:

    - [Giac], the interface of the wrapped library as the wrapper uses it
      (the library itself is a third-party dependency, not part of the
      repository);
    - the wrapper, written over any [Giac]: a heap of [giac::gen] objects
      addressed by handles, the output cells, and a small monad for state,
      C++ exceptions and undefined behaviour;
    - [RefGiac], an integer-only reference instance of the interface, used
      for the statements about numeric results and for concrete runs, and
      two doubles of the interface: [ThrowingGiac], whose operations fail,
      and [AnsweringGiac], whose operations answer. *)

From Stdlib Require Import ZArith String Ascii List Lia.
From Stdlib Require Import DecimalString DecimalPos DecimalN.
From stdpp Require Import base option gmap strings.

Set Implicit Arguments.
Unset Strict Implicit.
Open Scope string_scope.
Open Scope Z_scope.

(** ** C++ exceptions *)

(** The exception classes of [<stdexcept>] and [<new>] that matter for the
    handler [catch (std::runtime_error & e)] of [SAFE_VOID_CALL]: a handler
    for a class also catches the classes derived from it. *)
Inductive exception_class :=
  | std_runtime_error
  | std_range_error
  | std_overflow_error
  | std_underflow_error
  | std_logic_error
  | std_domain_error
  | std_invalid_argument
  | std_length_error
  | std_out_of_range
  | std_bad_alloc
  | other_class.

Definition derives_from_runtime_error (c : exception_class) : bool :=
  match c with
  | std_runtime_error | std_range_error
  | std_overflow_error | std_underflow_error => true
  | _ => false
  end.

(** A thrown object: its dynamic class and the text [what()] returns. *)
Record exn := Thrown { exn_class : exception_class; what : string }.

Definition runtime_error (msg : string) : exn := Thrown std_runtime_error msg.

(** What a call into the library does: return a value or throw. *)
Inductive outcome (A : Type) :=
  | Returns (a : A)
  | Throws (e : exn).
Arguments Returns {A} a.
Arguments Throws {A} e.

(** ** C strings *)

(** [typedef const char *result;]  NULL is [None]; a non-null pointer is the
    text it points to. *)
Definition result := option string.
Definition NULL : result := None.

(** The characters [strcpy] copies and [strlen] counts: those before the
    first zero byte. *)
Fixpoint c_str (s : string) : string :=
  match s with
  | EmptyString => EmptyString
  | String c s' => if Ascii.eqb c Ascii.zero then EmptyString else String c (c_str s')
  end.

(** [char *string_to_c(std::string s)]: [malloc(s.length() + 1)] followed by
    [strcpy(str, s.c_str())].  Allocation failure is not modelled. *)
Definition string_to_c (s : string) : string := c_str s.

(** ** The stream that discards its output *)

(** [std::streambuf], as far as utils.hpp overrides it: what [overflow]
    answers for a character the buffer has no room for. *)
Record streambuf := { overflow : Z -> Z }.

(** [std::ostream], by the buffer it writes to. *)
Record ostream := { rdbuf : streambuf }.

(** [class NullBuffer]: [int overflow(int c) noexcept override { return c; }],
    every character is reported as written and none is kept. *)
Definition NullBuffer : streambuf := {| overflow := fun c => c |}.

(** [class NullStream : public std::ostream], constructed over its
    [nullBuffer], and the object [static NullStream nullStream]. *)
Definition NullStream : ostream := {| rdbuf := NullBuffer |}.
Definition nullStream : ostream := NullStream.

(** ** Fixed-width stores *)

(** The value an [int8_t] holds after [*res = v] for an [int] v. *)
Definition to_int8 (v : Z) : Z := (v + 128) mod 256 - 128.

(** ** Decimal numerals *)

(** The decimal digits of a natural number, most significant first, and
    the number a string of decimal digits denotes. *)
Definition decimal_digits (n : N) : string := NilZero.string_of_uint (N.to_uint n).

Definition read_decimal (s : string) : option N :=
  match NilZero.uint_of_string s with
  | Some d => Some (N.of_uint d)
  | None => None
  end.

(** ** The interface of the wrapped library *)

(** A function of giac that is given a context pointer may read and update
    the library's state (bindings, parser diagnostics, epsilon, the random
    generator); one that is given none is a function of its arguments. *)
Record Giac := {
  gen : Type;                      (* giac::gen, by value *)
  ctxptr : Type;                   (* const giac::context * *)
  lib_state : Type;                (* what the contexts point to, and the globals *)
  c_float : Type;
  c_double : Type;

  context0 : ctxptr;                                         (* giac::context0 *)
  gen_default : gen;                                         (* giac::gen() *)
  gen_of_string : string -> ctxptr -> lib_state -> outcome gen * lib_state;
                                                             (* giac::gen(s, ctx) *)
  gen_of_int : Z -> gen;                                     (* giac::gen(int) *)
  gen_of_float : c_float -> gen;
  gen_of_double : c_double -> gen;
  gen_of_vecteur : list gen -> gen;                          (* giac::gen(vecteur) *)
  gen_type : gen -> Z;                                       (* e->type *)
  gen_at : gen -> Z -> outcome gen;                          (* vec[i] *)
  gen_print : gen -> outcome string;                         (* e->print() *)
  gen_to_int : gen -> outcome Z;                             (* e->to_int() *)
  first_error_line : ctxptr -> lib_state -> Z;
  parser_error : ctxptr -> lib_state -> string;
  eval : gen -> ctxptr -> lib_state -> outcome gen * lib_state;
  factorial : N -> outcome gen;                              (* unsigned long argument *)
  is_zero : gen -> ctxptr -> lib_state -> outcome bool * lib_state;
  is_undef : gen -> bool;
  gcd : gen -> gen -> ctxptr -> lib_state -> outcome gen * lib_state;
  lcm : gen -> gen -> outcome gen;
  _ifactor : gen -> ctxptr -> lib_state -> outcome gen * lib_state;
  _ifactors : gen -> ctxptr -> lib_state -> outcome gen * lib_state;
  _maple_ifactors : gen -> ctxptr -> lib_state -> outcome gen * lib_state;
  idivis : gen -> ctxptr -> lib_state -> outcome gen * lib_state;
  iquo : gen -> gen -> outcome gen;
  irem : gen -> gen -> outcome (gen * gen);                  (* (q, returned remainder) *)
  _even : gen -> ctxptr -> lib_state -> outcome gen * lib_state;
  _odd : gen -> ctxptr -> lib_state -> outcome gen * lib_state;
  is_probab_prime_p : gen -> outcome Z;
  nextprime : gen -> outcome gen;
  prevprime : gen -> outcome gen;
  _ithprime : gen -> ctxptr -> lib_state -> outcome gen * lib_state;
  egcd : gen -> gen -> gen -> gen -> gen -> (gen * gen * gen) * outcome unit;
                                           (* u, v, d by reference: what they hold
                                              when the call is left, and how it is left *)
  iabcuv : gen -> gen -> gen -> ctxptr -> lib_state -> outcome gen * lib_state;
  ichinrem : gen -> gen -> gen -> gen -> outcome gen;
  pa2b2 : gen -> ctxptr -> lib_state -> outcome gen * lib_state;
  euler : gen -> ctxptr -> lib_state -> outcome gen * lib_state;
  legendre : gen -> gen -> outcome Z;
  jacobi : gen -> gen -> outcome Z;
  comb : gen -> gen -> ctxptr -> lib_state -> outcome gen * lib_state;
  _perm : gen -> ctxptr -> lib_state -> outcome gen * lib_state;
  _rand : gen -> ctxptr -> lib_state -> outcome gen * lib_state;
  _float2rational : gen -> ctxptr -> lib_state -> outcome gen * lib_state;
  gen_add : gen -> gen -> outcome gen;                       (* operator+ *)
  gen_sub : gen -> gen -> outcome gen;                       (* operator- *)
  gen_mul : gen -> gen -> outcome gen;                       (* operator* *)
  gen_div : gen -> gen -> outcome gen;                       (* operator/ *)
  _factor : gen -> ctxptr -> lib_state -> outcome gen * lib_state;
  simplify : gen -> ctxptr -> lib_state -> outcome gen * lib_state;
  _det : gen -> ctxptr -> lib_state -> outcome gen * lib_state;
  epsilon : c_double -> ctxptr -> lib_state -> lib_state;
  logptr : ostream -> ctxptr -> lib_state -> lib_state;
  new_context : lib_state -> ctxptr * lib_state;             (* new giac::context() *)
  delete_context : ctxptr -> lib_state -> lib_state;
  release_globals : lib_state -> lib_state
}.

(** ** Handles, the heap and the monad of the wrapper *)

(** A handle is the address of a heap object. *)
Abbreviation loc := positive (only parsing).

Section Wrapper.

Context (G : Giac).

(** The objects the pointers of the ABI refer to, by pointee type, and the
    state of the library. *)
Record world := World {
  gens : gmap loc (gen G);          (* giac::gen * *)
  bools : gmap loc bool;            (* bool * *)
  int8s : gmap loc Z;               (* int8_t * *)
  ints : gmap loc Z;                (* int * *)
  giac_state : lib_state G
}.

(** How a call ends: it returns, it is left by an exception that unwinds to
    the caller, or its behaviour is undefined (a handle that refers to no
    live object). *)
Inductive run (A : Type) :=
  | Done (a : A) (w : world)
  | Unwinds (e : exn) (w : world)
  | Undefined.
Arguments Done {A} a w.
Arguments Unwinds {A} e w.
Arguments Undefined {A}.

Definition M (A : Type) := world -> run A.

Definition ret {A} (a : A) : M A := fun w => Done a w.

Definition bind {A B} (m : M A) (k : A -> M B) : M B := fun w =>
  match m w with
  | Done a w' => k a w'
  | Unwinds e w' => Unwinds e w'
  | Undefined => Undefined
  end.

Definition throw {A} (e : exn) : M A := fun w => Unwinds e w.

Notation "'let*' x := m 'in' k" := (bind m (fun x => k))
  (at level 10, x pattern, m at level 100, k at level 200).
Notation "m ;; k" := (bind m (fun _ => k))
  (at level 100, k at level 200, right associativity).

(** *** Pointers *)

(** [*p] for [giac::gen *p], read. *)
Definition deref (p : loc) : M (gen G) := fun w =>
  match gens w !! p with
  | Some g => Done g w
  | None => Undefined
  end.

Definition set_gens (f : gmap loc (gen G) -> gmap loc (gen G)) (w : world) : world :=
  World (f (gens w)) (bools w) (int8s w) (ints w) (giac_state w).

(** [*p = g] for [giac::gen *p]: the assignment operator of a live object. *)
Definition assign (p : loc) (g : gen G) : M unit := fun w =>
  match gens w !! p with
  | Some _ => Done tt (set_gens (insert p g) w)
  | None => Undefined
  end.

(** [*p = b] for [bool *p]. *)
Definition assign_bool (p : loc) (b : bool) : M unit := fun w =>
  match bools w !! p with
  | Some _ => Done tt (World (gens w) (<[p := b]> (bools w)) (int8s w) (ints w) (giac_state w))
  | None => Undefined
  end.

(** [*p = v] for [int8_t *p] and an [int] v: the value is narrowed. *)
Definition assign_int8 (p : loc) (v : Z) : M unit := fun w =>
  match int8s w !! p with
  | Some _ => Done tt (World (gens w) (bools w) (<[p := to_int8 v]> (int8s w)) (ints w) (giac_state w))
  | None => Undefined
  end.

(** [*p = v] for [int *p]. *)
Definition assign_int (p : loc) (v : Z) : M unit := fun w =>
  match ints w !! p with
  | Some _ => Done tt (World (gens w) (bools w) (int8s w) (<[p := v]> (ints w)) (giac_state w))
  | None => Undefined
  end.

(** [new giac::gen(g)]: an address that holds no object yet. *)
Definition new_gen (g : gen G) : M loc := fun w =>
  let p := fresh (dom (gens w)) in
  Done p (set_gens (insert p g) w).

(** [delete p]. *)
Definition delete_gen (p : loc) : M unit := fun w =>
  match gens w !! p with
  | Some _ => Done tt (set_gens (delete p) w)
  | None => Undefined
  end.

(** *** Calls into the library *)

(** A call that is given no context. *)
Definition giac_call {A} (o : outcome A) : M A := fun w =>
  match o with
  | Returns a => Done a w
  | Throws e => Unwinds e w
  end.

Definition set_giac_state (s : lib_state G) (w : world) : world :=
  World (gens w) (bools w) (int8s w) (ints w) s.

(** A call that is given a context. *)
Definition giac_ctx_call {A} (f : lib_state G -> outcome A * lib_state G) : M A := fun w =>
  match f (giac_state w) with
  | (Returns a, s) => Done a (set_giac_state s w)
  | (Throws e, s) => Unwinds e (set_giac_state s w)
  end.

(** A query of the library's state that cannot throw. *)
Definition giac_get {A} (f : lib_state G -> A) : M A := fun w => Done (f (giac_state w)) w.

(** A void library function that only updates the library's state. *)
Definition giac_set (f : lib_state G -> lib_state G) : M unit := fun w =>
  Done tt (set_giac_state (f (giac_state w)) w).

(** ** utils.hpp *)

(** [try { body } catch (std::runtime_error & e) { handler }]: the handler
    takes the exceptions whose class is [std::runtime_error] or derives from
    it; any other exception keeps unwinding. *)
Definition try_catch_runtime_error {A} (body : M A) (handler : exn -> M A) : M A := fun w =>
  match body w with
  | Done a w' => Done a w'
  | Unwinds e w' =>
      if derives_from_runtime_error (exn_class e) then handler e w' else Unwinds e w'
  | Undefined => Undefined
  end.

(** The handler of [SAFE_VOID_CALL]:
    it measures [e.what()] with [strlen], allocates [len + 1] bytes with
    [malloc], copies the text with [strcpy] and returns the copy. *)
Definition return_what (e : exn) : M result := ret (Some (c_str (what e))).

(** [#define SAFE_VOID_CALL(res_code) try { res_code return NULL; } catch ...] *)
Definition SAFE_VOID_CALL (res_code : M unit) : M result :=
  try_catch_runtime_error (res_code ;; ret NULL) return_what.

(** [SAFE_CALL(res_code)] expands to [SAFE_VOID_CALL] of the statement that
    assigns [res_code] through [res].  The assignment is a parameter, since
    the macro is used with slots of type gen, bool, int and int8_t. *)
Definition SAFE_CALL {A} (assign_res : A -> M unit) (res_code : M A) : M result :=
  SAFE_VOID_CALL (let* v := res_code in assign_res v).

(** ** gen.cpp *)

(** *** Allocation *)

Definition giacrs_gen_allocate : M loc := new_gen (gen_default G).

(** The constructor runs before the [try] block of [SAFE_CALL]; the parsed
    expression is assigned to the slot before the parser's error line is
    inspected. *)
Definition giacrs_gen_from_str (s : string) (ctx : ctxptr G) (res : loc) : M result :=
  let* g := giac_ctx_call (gen_of_string s ctx) in
  assign res g ;;
  let* line := giac_get (first_error_line ctx) in
  if negb (line =? 0) then
    let* msg := giac_get (parser_error ctx) in
    ret (Some (string_to_c msg))
  else
    SAFE_CALL (assign res) (let* e := deref res in giac_ctx_call (eval e ctx)).

Definition giacrs_gen_from_int (i : Z) : M loc := new_gen (gen_of_int G i).
Definition giacrs_gen_from_float (i : c_float G) : M loc := new_gen (gen_of_float i).
Definition giacrs_gen_from_double (i : c_double G) : M loc := new_gen (gen_of_double i).

Definition giacrs_gen_factorial (i : N) : M loc :=
  let* f := giac_call (factorial G i) in
  new_gen f.

Definition giacrs_free_gen (e : loc) : M unit := delete_gen e.

Definition giacrs_gen_clone (e : loc) : M loc :=
  let* g := deref e in
  new_gen g.

(** *** Data *)

Definition giacrs_gen_type (e : loc) : M Z :=
  let* g := deref e in
  ret (gen_type g).

Definition giacrs_gen_is_zero (e res : loc) (ctx : ctxptr G) : M result :=
  SAFE_CALL (assign_bool res) (let* g := deref e in giac_ctx_call (is_zero g ctx)).

(** *** Conversion *)

Definition giacrs_gen_to_str (e : loc) : M string :=
  let* g := deref e in
  let* s := giac_call (gen_print g) in
  ret (string_to_c s).

Definition giacrs_gen_to_int (e res : loc) : M result :=
  SAFE_CALL (assign_int res) (let* g := deref e in giac_call (gen_to_int g)).

(** *** Methods *)

(** The shapes most methods share: one or two handles read, one library
    call, with or without a context. *)
Definition unary (f : gen G -> outcome (gen G)) (a : loc) : M (gen G) :=
  let* x := deref a in giac_call (f x).

Definition unary_ctx (f : gen G -> ctxptr G -> lib_state G -> outcome (gen G) * lib_state G)
    (a : loc) (ctx : ctxptr G) : M (gen G) :=
  let* x := deref a in giac_ctx_call (f x ctx).

Definition binary {A} (f : gen G -> gen G -> outcome A) (a b : loc) : M A :=
  let* x := deref a in let* y := deref b in giac_call (f x y).

Definition binary_ctx (f : gen G -> gen G -> ctxptr G -> lib_state G -> outcome (gen G) * lib_state G)
    (a b : loc) (ctx : ctxptr G) : M (gen G) :=
  let* x := deref a in let* y := deref b in giac_ctx_call (f x y ctx).

Definition giacrs_gen_gcd (a b res : loc) (ctx : ctxptr G) : M result :=
  SAFE_CALL (assign res) (binary_ctx (@gcd G) a b ctx).

Definition giacrs_gen_lcm (a b res : loc) : M result :=
  SAFE_CALL (assign res) (binary (@lcm G) a b).

Definition giacrs_gen_ifactor (e res : loc) (ctx : ctxptr G) : M result :=
  SAFE_CALL (assign res) (unary_ctx (@_ifactor G) e ctx).

Definition giacrs_gen_ifactors (e res : loc) (ctx : ctxptr G) : M result :=
  SAFE_CALL (assign res) (unary_ctx (@_ifactors G) e ctx).

Definition giacrs_gen_maple_ifactors (e res : loc) (ctx : ctxptr G) : M result :=
  SAFE_CALL (assign res) (unary_ctx (@_maple_ifactors G) e ctx).

Definition giacrs_gen_divisors (e res : loc) (ctx : ctxptr G) : M result :=
  SAFE_CALL (assign res) (unary_ctx (@idivis G) e ctx).

Definition giacrs_gen_iquo (a b res : loc) : M result :=
  SAFE_CALL (assign res) (binary (@iquo G) a b).

(** [giac::irem(a, b, q)] takes [q] by reference, stores the quotient in it
    and returns the remainder.  The library function is taken as a function
    of the values of [a] and [b], which presumes that [q] is an object other
    than these two. *)
Definition giacrs_gen_iquorem (a b q res : loc) : M result :=
  SAFE_CALL (assign res)
    (let* x := deref a in
     let* y := deref b in
     let* _ := deref q in
     let* qr := giac_call (irem x y) in
     assign q (fst qr) ;;
     ret (snd qr)).

(** [giac::gen q;] is a local object: it lives at an address of its own
    for the duration of the call and is destroyed when the call is left,
    by return or by an exception. *)
Definition with_local_gen {A} (body : loc -> M A) : M A := fun w =>
  let q := fresh (dom (gens w)) in
  match body q (set_gens (insert q (gen_default G)) w) with
  | Done a w' => Done a (set_gens (delete q) w')
  | Unwinds e w' => Unwinds e (set_gens (delete q) w')
  | Undefined => Undefined
  end.

Definition giacrs_gen_irem (a b res : loc) : M result :=
  with_local_gen (fun q => giacrs_gen_iquorem a b q res).

(** [giac::is_zero] is called with one argument here: its context
    parameter takes the default, the global context. *)
Definition giacrs_gen_even (a res : loc) (ctx : ctxptr G) : M result :=
  SAFE_CALL (assign_bool res)
    (let* e := unary_ctx (@_even G) a ctx in
     let* z := giac_ctx_call (is_zero e (context0 G)) in
     ret (negb z)).

Definition giacrs_gen_odd (a res : loc) (ctx : ctxptr G) : M result :=
  SAFE_CALL (assign_bool res)
    (let* e := unary_ctx (@_odd G) a ctx in
     let* z := giac_ctx_call (is_zero e (context0 G)) in
     ret (negb z)).

Definition giacrs_gen_is_pseudoprime (a res : loc) : M result :=
  SAFE_CALL (assign_int8 res) (let* x := deref a in giac_call (is_probab_prime_p x)).

Definition giacrs_gen_nextprime (a res : loc) : M result :=
  SAFE_CALL (assign res) (unary (@nextprime G) a).

Definition giacrs_gen_prevprime (a res : loc) : M result :=
  SAFE_CALL (assign res) (unary (@prevprime G) a).

(** The text of the exception [giacrs_gen_nthprime] throws itself. *)
Definition nthprime_message : string :=
  "Failed to compute nthprime, argument is too big".

(** The function has a [try] block of its own, with the handler of
    [SAFE_VOID_CALL] written out; the result is tested after it has been
    assigned to the slot. *)
Definition giacrs_gen_nthprime (a res : loc) (ctx : ctxptr G) : M result :=
  try_catch_runtime_error
    (let* p := unary_ctx (@_ithprime G) a ctx in
     assign res p ;;
     let* r := deref res in
     if is_undef r then throw (runtime_error nthprime_message)
     else ret NULL)
    return_what.

(** [giac::egcd(a, b, u, v, d)] returns nothing: inside the [try] block it
    is handed references to the objects [u], [v] and [d] and assigns them
    itself, so it may have assigned them when it throws.  The library
    function says what the three objects hold when the call is left and how
    it is left; it is taken as a function of what the five objects hold
    when the call is entered, which presumes that [u], [v] and [d] are three
    objects other than [a] and [b]. *)
Definition giacrs_gen_iegcd (a b u v d : loc) : M result :=
  SAFE_VOID_CALL
    (let* x := deref a in
     let* y := deref b in
     let* u0 := deref u in
     let* v0 := deref v in
     let* d0 := deref d in
     let left := egcd x y u0 v0 d0 in
     assign u (fst (fst (fst left))) ;;
     assign v (snd (fst (fst left))) ;;
     assign d (snd (fst left)) ;;
     giac_call (snd left)).

Definition giacrs_gen_iabcuv (a b c u v : loc) (ctx : ctxptr G) : M result :=
  SAFE_VOID_CALL
    (let* x := deref a in
     let* y := deref b in
     let* z := deref c in
     let* vec := giac_ctx_call (iabcuv x y z ctx) in
     let* v0 := giac_call (gen_at vec 0) in
     assign u v0 ;;
     let* v1 := giac_call (gen_at vec 1) in
     assign v v1).

(** The moduli are passed third and fourth: [giac::ichinrem(a, b, amod, bmod)]. *)
Definition giacrs_gen_ichinrem (a amod b bmod res : loc) : M result :=
  SAFE_CALL (assign res)
    (let* x := deref a in
     let* y := deref b in
     let* xm := deref amod in
     let* ym := deref bmod in
     giac_call (ichinrem x y xm ym)).

Definition giacrs_gen_pa2b2 (p a b : loc) (ctx : ctxptr G) : M result :=
  SAFE_VOID_CALL
    (let* vec := unary_ctx (@pa2b2 G) p ctx in
     let* v0 := giac_call (gen_at vec 0) in
     assign a v0 ;;
     let* v1 := giac_call (gen_at vec 1) in
     assign b v1).

Definition giacrs_gen_euler (a res : loc) (ctx : ctxptr G) : M result :=
  SAFE_CALL (assign res) (unary_ctx (@euler G) a ctx).

Definition giacrs_gen_legendre (a b res : loc) : M result :=
  SAFE_CALL (assign_int8 res) (binary (@legendre G) a b).

Definition giacrs_gen_jacobi (a b res : loc) : M result :=
  SAFE_CALL (assign_int8 res) (binary (@jacobi G) a b).

Definition giacrs_gen_comb (n k res : loc) (ctx : ctxptr G) : M result :=
  SAFE_CALL (assign res) (binary_ctx (@comb G) n k ctx).

(** The two-element vector is filled before the [try] block. *)
Definition giacrs_gen_perm (n k res : loc) (ctx : ctxptr G) : M result :=
  let* x := deref n in
  let* y := deref k in
  SAFE_CALL (assign res) (giac_ctx_call (_perm (gen_of_vecteur (x :: y :: nil)) ctx)).

Definition giacrs_gen_rand (n res : loc) (ctx : ctxptr G) : M result :=
  SAFE_CALL (assign res) (unary_ctx (@_rand G) n ctx).

Definition giacrs_gen_float2rational (n res : loc) (ctx : ctxptr G) : M result :=
  SAFE_CALL (assign res) (unary_ctx (@_float2rational G) n ctx).

(** *** Operators *)

Definition giacrs_gen_add (res f : loc) : M result :=
  SAFE_CALL (assign res) (binary (@gen_add G) res f).
Definition giacrs_gen_sub (res f : loc) : M result :=
  SAFE_CALL (assign res) (binary (@gen_sub G) res f).
Definition giacrs_gen_mul (res f : loc) : M result :=
  SAFE_CALL (assign res) (binary (@gen_mul G) res f).
Definition giacrs_gen_div (res f : loc) : M result :=
  SAFE_CALL (assign res) (binary (@gen_div G) res f).

(** *** Others *)

Definition giacrs_gen_factor (e res : loc) (ctx : ctxptr G) : M result :=
  SAFE_CALL (assign res) (unary_ctx (@_factor G) e ctx).

Definition giacrs_gen_simplify (e res : loc) (ctx : ctxptr G) : M result :=
  SAFE_CALL (assign res) (unary_ctx (@simplify G) e ctx).

Definition giacrs_gen_det (e res : loc) (ctx : ctxptr G) : M result :=
  SAFE_CALL (assign res) (unary_ctx (@_det G) e ctx).

(** ** context.cpp and options.cpp *)

Definition giacrs_global_context : ctxptr G := context0 G.

Definition giacrs_init_global_context : M unit :=
  giac_set (logptr nullStream (context0 G)).

Definition giacrs_new_context : M (ctxptr G) :=
  let* c := (fun w => let cs := new_context (giac_state w) in
                      Done (fst cs) (set_giac_state (snd cs) w)) in
  giac_set (logptr nullStream c) ;;
  ret c.

Definition giacrs_free_context (ctx : ctxptr G) : M unit := giac_set (delete_context ctx).

Definition giacrs_release_globals : M unit := giac_set (@release_globals G).

Definition giacrs_options_set_epsilon (e : c_double G) (ctx : ctxptr G) : M unit :=
  giac_set (epsilon e ctx).

End Wrapper.

Arguments Done {G A} a w.
Arguments Unwinds {G A} e w.
Arguments Undefined {G A}.
Arguments return_what {G} e.

Notation "'let*' x := m 'in' k" := (bind m (fun x => k))
  (at level 10, x pattern, m at level 100, k at level 200).
Notation "m ;; k" := (bind m (fun _ => k))
  (at level 100, k at level 200, right associativity).

(** ** A reference instance of the library, on integers *)

(** The values of the reference instance: arbitrary-precision integers,
    the undefined value, and the one symbolic form the parser builds, an
    unevaluated quotient of two integers.  Rationals, floats and vectors are
    outside it; an operation that would need them raises. *)
Inductive rgen :=
  | RInt (z : Z)
  | RUndef
  | RQuot (n d : Z).

(** The library state of the reference instance: the diagnostics of the
    last parse and the number of contexts created. *)
Record rstate := RState {
  error_line : Z;
  error_text : string;
  contexts : nat
}.

Definition bad_argument {A} : outcome A :=
  Throws (runtime_error "Bad Argument Type").

Definition outside_reference {A} : outcome A :=
  Throws (runtime_error "Not in the integer reference instance").

Definition division_by_zero {A} : outcome A :=
  Throws (runtime_error "Division by 0").

(** Lifting of the integer operations. *)
Definition on_int (f : Z -> outcome rgen) (a : rgen) : outcome rgen :=
  match a with
  | RInt x => f x
  | _ => bad_argument
  end.

Definition on_ints {A} (f : Z -> Z -> outcome A) (a b : rgen) : outcome A :=
  match a, b with
  | RInt x, RInt y => f x y
  | _, _ => bad_argument
  end.

Definition stateless {A S} (o : outcome A) : S -> outcome A * S := fun s => (o, s).

(** Modelled from the spec: [giac::gcd] on integers, which is not part of
    the repository; "gcd(a,b) and lcm(a,b) satisfy gcd(a,b) * lcm(a,b) ==
    |a*b|", with the greatest common divisor taken non-negative. *)
Definition ref_gcd (a b : rgen) : outcome rgen :=
  on_ints (fun x y => Returns (RInt (Z.gcd x y))) a b.

(** Modelled from the spec: [giac::lcm] on integers, which is not part of
    the repository; the least common multiple, non-negative, the companion
    of [ref_gcd] in the identity of section 8. *)
Definition ref_lcm (a b : rgen) : outcome rgen :=
  on_ints (fun x y => Returns (RInt (Z.lcm x y))) a b.

(** Modelled from the spec: [giac::irem(a, b, q)] on integers, which is not
    part of the repository; "quotient q and remainder r such that
    a == b*q + r and 0 <= r < |b|", and division by zero is a domain error
    of the library. The remainder is taken modulo |b| and the quotient is
    what is left, divided by b. *)
Definition ref_irem (a b : rgen) : outcome (rgen * rgen) :=
  on_ints (fun x y =>
    if Z.eqb y 0 then division_by_zero
    else
      let r := x mod Z.abs y in
      Returns (RInt ((x - r) / y), RInt r)) a b.

Definition ref_iquo (a b : rgen) : outcome rgen :=
  match ref_irem a b with
  | Returns (q, _) => Returns q
  | Throws e => Throws e
  end.

(** Modelled from the spec: [giac::factorial], which is not part of the
    repository; "computes n! as an exact (arbitrary-precision) integer
    value eagerly". *)
Definition ref_factorial (n : N) : outcome rgen :=
  Returns (RInt (Z.of_nat (fact (N.to_nat n)))).

(** Modelled from the spec: [giac::gen::print], which is not part of the
    repository; the canonical text of an integer is its decimal digits,
    with a minus sign when negative. *)
Definition ref_print (a : rgen) : outcome string :=
  match a with
  | RInt z => Returns (NilZero.string_of_int (Z.to_int z))
  | RUndef => Returns "undef"
  | RQuot n d =>
      Returns (NilZero.string_of_int (Z.to_int n) ++ "/" ++ NilZero.string_of_int (Z.to_int d))
  end.

(** The text before and after the first '/' of a string. *)
Fixpoint split_slash (s : string) : option (string * string) :=
  match s with
  | EmptyString => None
  | String c s' =>
      if Ascii.eqb c "/"%char then Some (EmptyString, s')
      else match split_slash s' with
           | Some (l, r) => Some (String c l, r)
           | None => None
           end
  end.

(** Modelled from the spec: the constructor [giac::gen(s, ctx)], which is
    not part of the repository; it parses without evaluating, and "on
    syntax error" leaves "the library's parser diagnostics" in the context.
    The reference instance reads a decimal integer, or two of them around a
    '/', which it keeps as an unevaluated quotient.  Any other text is a
    syntax error: the error line is set and a diagnostic recorded. *)
Definition ref_parse (s : string) (st : rstate) : outcome rgen * rstate :=
  let accept g := (Returns g, RState 0 "" (contexts st)) in
  let reject := (Returns RUndef, RState 1 ("syntax error line 1 near " ++ s) (contexts st)) in
  match split_slash s with
  | Some (l, r) =>
      match NilZero.int_of_string l, NilZero.int_of_string r with
      | Some n, Some d => accept (RQuot (Z.of_int n) (Z.of_int d))
      | _, _ => reject
      end
  | None =>
      match NilZero.int_of_string s with
      | Some d => accept (RInt (Z.of_int d))
      | None => reject
      end
  end.

Definition fits_int (z : Z) : bool := (-2147483648 <=? z) && (z <=? 2147483647).

Definition ref_to_int (a : rgen) : outcome Z :=
  match a with
  | RInt z => if fits_int z then Returns z else bad_argument
  | _ => bad_argument
  end.

(** The first primes. *)
Definition prime_table : list Z := 2 :: 3 :: 5 :: 7 :: 11 :: 13 :: 17 :: 19 :: 23 :: 29 :: nil.

(** Modelled from the spec: [giac::_ithprime], which is not part of the
    repository; the lookup yields "an undefined result for an oversized
    argument".  How large is too large is the library's business: the
    reference instance knows the primes of its table. *)
Definition ref_ithprime (a : rgen) : outcome rgen :=
  on_int (fun n =>
    if n <=? 0 then bad_argument
    else match nth_error prime_table (Z.to_nat (n - 1)) with
         | Some p => Returns (RInt p)
         | None => Returns RUndef
         end) a.

(** Modelled from the spec: [giac::legendre], which is not part of the
    repository; "a small signed-integer code rather than a boolean".  The
    Legendre symbol of a modulo p, from its definition: 0 when p divides a,
    1 when a is a nonzero square modulo p, -1 otherwise. *)
Definition ref_legendre (a p : rgen) : outcome Z :=
  on_ints (fun x m =>
    if m <=? 1 then bad_argument
    else if Z.eqb (x mod m) 0 then Returns 0
    else if existsb (fun k => Z.eqb ((k * k) mod m) (x mod m))
                    (map Z.of_nat (seq 1 (Z.to_nat m - 1)))
         then Returns 1
         else Returns (-1)) a p.

(** Modelled from the spec: [operator/] on integers, which is not part of
    the repository; "domain errors such as division by zero" are raised by
    the library.  A quotient that is not an integer is outside the
    reference instance. *)
Definition ref_div (a b : rgen) : outcome rgen :=
  on_ints (fun x y =>
    if Z.eqb y 0 then division_by_zero
    else if Z.eqb (x mod y) 0 then Returns (RInt (x / y))
    else outside_reference) a b.

(** Modelled from the spec: [giac::eval], which is not part of the
    repository; evaluation can fail with an exception.  It carries out the
    division of an unevaluated quotient and leaves other values as they
    are. *)
Definition ref_eval (a : rgen) : outcome rgen :=
  match a with
  | RQuot n d => ref_div (RInt n) (RInt d)
  | _ => Returns a
  end.

(** The coefficients of Bezout and the greatest common divisor, by the
    extended algorithm of Euclid: [(u, v, d)] with [a * u + b * v = d]. *)
Fixpoint bezout (fuel : nat) (a b : Z) : Z * Z * Z :=
  match fuel with
  | O => (Z.sgn a, 0, Z.abs a)
  | S fuel' =>
      if b =? 0 then (Z.sgn a, 0, Z.abs a)
      else
        let '(u, v, d) := bezout fuel' b (a mod b) in
        (v, u - a / b * v, d)
  end.

(** Modelled from the spec: [giac::egcd], which is not part of the
    repository; the "extended Euclid" of section 4.3, one of the
    "multi-valued operations" that "populate two or three distinct output
    handles".  On integers it assigns the two coefficients and the greatest
    common divisor; on other values it raises and leaves the three objects
    as they were. *)
Definition ref_egcd (a b u v d : rgen) : (rgen * rgen * rgen) * outcome unit :=
  match a, b with
  | RInt x, RInt y =>
      let '(cu, cv, g) := bezout (S (Z.to_nat (Z.abs y))) x y in
      ((RInt cu, RInt cv, RInt g), Returns tt)
  | _, _ => ((u, v, d), bad_argument)
  end.

Definition ref_is_zero (a : rgen) : outcome bool :=
  match a with
  | RInt z => Returns (z =? 0)
  | _ => Returns false
  end.

Definition ref_is_undef (a : rgen) : bool :=
  match a with
  | RUndef => true
  | _ => false
  end.

(** The discriminant of the representation: machine integer, big integer,
    identifier, symbolic expression. *)
Definition ref_type (a : rgen) : Z :=
  match a with
  | RInt z => if fits_int z then 0 else 2
  | RUndef => 6
  | RQuot _ _ => 8
  end.

Definition RefGiac : Giac := {|
  gen := rgen;
  ctxptr := nat;
  lib_state := rstate;
  c_float := Empty_set;
  c_double := Empty_set;
  context0 := O;
  gen_default := RInt 0;
  gen_of_string := fun s _ => ref_parse s;
  gen_of_int := RInt;
  gen_of_float := fun f => match f with end;
  gen_of_double := fun f => match f with end;
  gen_of_vecteur := fun _ => RUndef;
  gen_type := ref_type;
  gen_at := fun _ _ => outside_reference;
  gen_print := ref_print;
  gen_to_int := ref_to_int;
  first_error_line := fun _ => error_line;
  parser_error := fun _ => error_text;
  eval := fun g _ => stateless (ref_eval g);
  factorial := ref_factorial;
  is_zero := fun g _ => stateless (ref_is_zero g);
  is_undef := ref_is_undef;
  gcd := fun a b _ => stateless (ref_gcd a b);
  lcm := ref_lcm;
  _ifactor := fun _ _ => stateless outside_reference;
  _ifactors := fun _ _ => stateless outside_reference;
  _maple_ifactors := fun _ _ => stateless outside_reference;
  idivis := fun _ _ => stateless outside_reference;
  iquo := ref_iquo;
  irem := ref_irem;
  _even := fun a _ => stateless (on_int (fun x => Returns (RInt (if Z.even x then 1 else 0))) a);
  _odd := fun a _ => stateless (on_int (fun x => Returns (RInt (if Z.odd x then 1 else 0))) a);
  is_probab_prime_p := fun _ => outside_reference;
  nextprime := fun _ => outside_reference;
  prevprime := fun _ => outside_reference;
  _ithprime := fun a _ => stateless (ref_ithprime a);
  egcd := ref_egcd;
  iabcuv := fun _ _ _ _ => stateless outside_reference;
  ichinrem := fun _ _ _ _ => outside_reference;
  pa2b2 := fun _ _ => stateless outside_reference;
  euler := fun _ _ => stateless outside_reference;
  legendre := ref_legendre;
  jacobi := fun _ _ => outside_reference;
  comb := fun _ _ _ => stateless outside_reference;
  _perm := fun _ _ => stateless outside_reference;
  _rand := fun _ _ => stateless outside_reference;
  _float2rational := fun _ _ => stateless outside_reference;
  gen_add := on_ints (fun x y => Returns (RInt (x + y)));
  gen_sub := on_ints (fun x y => Returns (RInt (x - y)));
  gen_mul := on_ints (fun x y => Returns (RInt (x * y)));
  gen_div := ref_div;
  _factor := fun _ _ => stateless outside_reference;
  simplify := fun g _ => stateless (ref_eval g);
  _det := fun _ _ => stateless outside_reference;
  epsilon := fun e => match e with end;
  logptr := fun _ _ st => st;
  new_context := fun st => (S (contexts st), RState (error_line st) (error_text st) (S (contexts st)));
  delete_context := fun _ st => st;
  release_globals := fun st => st
|}.

(** A world of the reference instance: handles 1, 2, 3, ... hold the
    given values; one cell of each other kind at address 1. *)
Definition ref_world (values : list rgen) : world RefGiac :=
  World (G := RefGiac)
    (list_to_map (zip (map Pos.of_nat (seq 1 (length values))) values))
    {[ 1%positive := false ]} {[ 1%positive := 0 ]} {[ 1%positive := 0 ]}
    (RState 0 "" 0).

(** ** A library double that always throws *)

(** The interface with one-point carriers, every fallible operation of
    which throws the given exception.  It stands for the library at the
    moment an operation fails. *)
Definition ThrowingGiac (e : exn) : Giac := {|
  gen := unit;
  ctxptr := unit;
  lib_state := unit;
  c_float := unit;
  c_double := unit;
  context0 := tt;
  gen_default := tt;
  gen_of_string := fun _ _ st => (Throws e, st);
  gen_of_int := fun _ => tt;
  gen_of_float := fun _ => tt;
  gen_of_double := fun _ => tt;
  gen_of_vecteur := fun _ => tt;
  gen_type := fun _ => 0;
  gen_at := fun _ _ => Throws e;
  gen_print := fun _ => Throws e;
  gen_to_int := fun _ => Throws e;
  first_error_line := fun _ _ => 0;
  parser_error := fun _ _ => "";
  eval := fun _ _ st => (Throws e, st);
  factorial := fun _ => Throws e;
  is_zero := fun _ _ st => (Throws e, st);
  is_undef := fun _ => false;
  gcd := fun _ _ _ st => (Throws e, st);
  lcm := fun _ _ => Throws e;
  _ifactor := fun _ _ st => (Throws e, st);
  _ifactors := fun _ _ st => (Throws e, st);
  _maple_ifactors := fun _ _ st => (Throws e, st);
  idivis := fun _ _ st => (Throws e, st);
  iquo := fun _ _ => Throws e;
  irem := fun _ _ => Throws e;
  _even := fun _ _ st => (Throws e, st);
  _odd := fun _ _ st => (Throws e, st);
  is_probab_prime_p := fun _ => Throws e;
  nextprime := fun _ => Throws e;
  prevprime := fun _ => Throws e;
  _ithprime := fun _ _ st => (Throws e, st);
  egcd := fun _ _ u v d => ((u, v, d), Throws e);
  iabcuv := fun _ _ _ _ st => (Throws e, st);
  ichinrem := fun _ _ _ _ => Throws e;
  pa2b2 := fun _ _ st => (Throws e, st);
  euler := fun _ _ st => (Throws e, st);
  legendre := fun _ _ => Throws e;
  jacobi := fun _ _ => Throws e;
  comb := fun _ _ _ st => (Throws e, st);
  _perm := fun _ _ st => (Throws e, st);
  _rand := fun _ _ st => (Throws e, st);
  _float2rational := fun _ _ st => (Throws e, st);
  gen_add := fun _ _ => Throws e;
  gen_sub := fun _ _ => Throws e;
  gen_mul := fun _ _ => Throws e;
  gen_div := fun _ _ => Throws e;
  _factor := fun _ _ st => (Throws e, st);
  simplify := fun _ _ st => (Throws e, st);
  _det := fun _ _ st => (Throws e, st);
  epsilon := fun _ _ st => st;
  logptr := fun _ _ st => st;
  new_context := fun st => (tt, st);
  delete_context := fun _ st => st;
  release_globals := fun st => st
|}.

(** A world of the double with two live handles. *)
Definition throwing_world (e : exn) : world (ThrowingGiac e) :=
  World (G := ThrowingGiac e)
    {[ 1%positive := tt; 2%positive := tt ]} ∅ ∅ ∅ tt.

(** ** A library double that always answers *)

(** The counterpart of [ThrowingGiac], with integers for values: every
    operation returns, with its first argument where it has one of the
    right type.  The three sign-coded predicates answer [code], whatever
    they are asked; a vector has [len] elements, the element of index [i]
    of the vector [v] being [v + i], and an index outside it raises. *)
Definition index_error : exn := runtime_error "Index outside range".

Definition AnsweringGiac (code len : Z) : Giac := {|
  gen := Z;
  ctxptr := unit;
  lib_state := unit;
  c_float := unit;
  c_double := unit;
  context0 := tt;
  gen_default := 0;
  gen_of_string := fun _ _ st => (Returns 0, st);
  gen_of_int := fun i => i;
  gen_of_float := fun _ => 0;
  gen_of_double := fun _ => 0;
  gen_of_vecteur := fun l => hd 0 l;
  gen_type := fun _ => 0;
  gen_at := fun v i => if (0 <=? i) && (i <? len) then Returns (v + i) else Throws index_error;
  gen_print := fun _ => Returns "";
  gen_to_int := fun a => Returns a;
  first_error_line := fun _ _ => 0;
  parser_error := fun _ _ => "";
  eval := fun a _ st => (Returns a, st);
  factorial := fun n => Returns (Z.of_N n);
  is_zero := fun a _ st => (Returns (a =? 0), st);
  is_undef := fun _ => false;
  gcd := fun a _ _ st => (Returns a, st);
  lcm := fun a _ => Returns a;
  _ifactor := fun a _ st => (Returns a, st);
  _ifactors := fun a _ st => (Returns a, st);
  _maple_ifactors := fun a _ st => (Returns a, st);
  idivis := fun a _ st => (Returns a, st);
  iquo := fun a _ => Returns a;
  irem := fun a b => Returns (a, b);
  _even := fun a _ st => (Returns a, st);
  _odd := fun a _ st => (Returns a, st);
  is_probab_prime_p := fun _ => Returns code;
  nextprime := fun a => Returns a;
  prevprime := fun a => Returns a;
  _ithprime := fun a _ st => (Returns a, st);
  egcd := fun a b _ _ _ => ((a, b, 0), Returns tt);
  iabcuv := fun a _ _ _ st => (Returns a, st);
  ichinrem := fun a _ _ _ => Returns a;
  pa2b2 := fun a _ st => (Returns a, st);
  euler := fun a _ st => (Returns a, st);
  legendre := fun _ _ => Returns code;
  jacobi := fun _ _ => Returns code;
  comb := fun a _ _ st => (Returns a, st);
  _perm := fun a _ st => (Returns a, st);
  _rand := fun a _ st => (Returns a, st);
  _float2rational := fun a _ st => (Returns a, st);
  gen_add := fun a _ => Returns a;
  gen_sub := fun a _ => Returns a;
  gen_mul := fun a _ => Returns a;
  gen_div := fun a _ => Returns a;
  _factor := fun a _ st => (Returns a, st);
  simplify := fun a _ st => (Returns a, st);
  _det := fun a _ st => (Returns a, st);
  epsilon := fun _ _ st => st;
  logptr := fun _ _ st => st;
  new_context := fun st => (tt, st);
  delete_context := fun _ st => st;
  release_globals := fun st => st
|}.

(** A world of this double: handles 1, 2, 3, ... hold the given values,
    and there is one [int8_t] cell, at address 1. *)
Definition answering_world (code len : Z) (values : list Z) : world (AnsweringGiac code len) :=
  World (G := AnsweringGiac code len)
    (list_to_map (zip (map Pos.of_nat (seq 1 (length values))) values))
    ∅ {[ 1%positive := 0 ]} ∅ tt.

(** ** The entry points, as data *)

Section Entries.

Context (G : Giac).

(** The entry points declared with the return type [result]. *)
Inductive entry :=
  | call_from_str (s : string) (ctx : ctxptr G) (res : loc)
  | call_is_zero (e res : loc) (ctx : ctxptr G)
  | call_to_int (e res : loc)
  | call_gcd (a b res : loc) (ctx : ctxptr G)
  | call_lcm (a b res : loc)
  | call_ifactor (e res : loc) (ctx : ctxptr G)
  | call_ifactors (e res : loc) (ctx : ctxptr G)
  | call_maple_ifactors (e res : loc) (ctx : ctxptr G)
  | call_divisors (e res : loc) (ctx : ctxptr G)
  | call_iquo (a b res : loc)
  | call_iquorem (a b q res : loc)
  | call_irem (a b res : loc)
  | call_even (a res : loc) (ctx : ctxptr G)
  | call_odd (a res : loc) (ctx : ctxptr G)
  | call_is_pseudoprime (a res : loc)
  | call_nextprime (a res : loc)
  | call_prevprime (a res : loc)
  | call_nthprime (a res : loc) (ctx : ctxptr G)
  | call_iegcd (a b u v d : loc)
  | call_iabcuv (a b c u v : loc) (ctx : ctxptr G)
  | call_ichinrem (a amod b bmod res : loc)
  | call_pa2b2 (p a b : loc) (ctx : ctxptr G)
  | call_euler (a res : loc) (ctx : ctxptr G)
  | call_legendre (a b res : loc)
  | call_jacobi (a b res : loc)
  | call_comb (n k res : loc) (ctx : ctxptr G)
  | call_perm (n k res : loc) (ctx : ctxptr G)
  | call_rand (n res : loc) (ctx : ctxptr G)
  | call_float2rational (n res : loc) (ctx : ctxptr G)
  | call_add (res f : loc)
  | call_sub (res f : loc)
  | call_mul (res f : loc)
  | call_div (res f : loc)
  | call_factor (e res : loc) (ctx : ctxptr G)
  | call_simplify (e res : loc) (ctx : ctxptr G)
  | call_det (e res : loc) (ctx : ctxptr G).

Definition call (ep : entry) : M G result :=
  match ep with
  | call_from_str s ctx res => giacrs_gen_from_str s ctx res
  | call_is_zero e res ctx => giacrs_gen_is_zero e res ctx
  | call_to_int e res => giacrs_gen_to_int e res
  | call_gcd a b res ctx => giacrs_gen_gcd a b res ctx
  | call_lcm a b res => giacrs_gen_lcm a b res
  | call_ifactor e res ctx => giacrs_gen_ifactor e res ctx
  | call_ifactors e res ctx => giacrs_gen_ifactors e res ctx
  | call_maple_ifactors e res ctx => giacrs_gen_maple_ifactors e res ctx
  | call_divisors e res ctx => giacrs_gen_divisors e res ctx
  | call_iquo a b res => giacrs_gen_iquo a b res
  | call_iquorem a b q res => giacrs_gen_iquorem a b q res
  | call_irem a b res => giacrs_gen_irem a b res
  | call_even a res ctx => giacrs_gen_even a res ctx
  | call_odd a res ctx => giacrs_gen_odd a res ctx
  | call_is_pseudoprime a res => giacrs_gen_is_pseudoprime a res
  | call_nextprime a res => giacrs_gen_nextprime a res
  | call_prevprime a res => giacrs_gen_prevprime a res
  | call_nthprime a res ctx => giacrs_gen_nthprime a res ctx
  | call_iegcd a b u v d => giacrs_gen_iegcd a b u v d
  | call_iabcuv a b c u v ctx => giacrs_gen_iabcuv a b c u v ctx
  | call_ichinrem a amod b bmod res => giacrs_gen_ichinrem a amod b bmod res
  | call_pa2b2 p a b ctx => giacrs_gen_pa2b2 p a b ctx
  | call_euler a res ctx => giacrs_gen_euler a res ctx
  | call_legendre a b res => giacrs_gen_legendre a b res
  | call_jacobi a b res => giacrs_gen_jacobi a b res
  | call_comb n k res ctx => giacrs_gen_comb n k res ctx
  | call_perm n k res ctx => giacrs_gen_perm n k res ctx
  | call_rand n res ctx => giacrs_gen_rand n res ctx
  | call_float2rational n res ctx => giacrs_gen_float2rational n res ctx
  | call_add res f => giacrs_gen_add res f
  | call_sub res f => giacrs_gen_sub res f
  | call_mul res f => giacrs_gen_mul res f
  | call_div res f => giacrs_gen_div res f
  | call_factor e res ctx => giacrs_gen_factor e res ctx
  | call_simplify e res ctx => giacrs_gen_simplify e res ctx
  | call_det e res ctx => giacrs_gen_det e res ctx
  end.

(** The entry points that hand a computation to the library: those above
    and the two without an error channel, [giacrs_gen_to_str] (which calls
    [print]) and [giacrs_gen_factorial]. *)
Inductive public_call :=
  | with_result (ep : entry)
  | call_to_str (e : loc)
  | call_factorial (i : N).

(** The exception that leaves a call, if one does. *)
Definition escaping {A} (r : run G A) : option exn :=
  match r with
  | Unwinds e _ => Some e
  | _ => None
  end.

Definition escapes_from (pc : public_call) (w : world G) : option exn :=
  match pc with
  | with_result ep => escaping (call ep w)
  | call_to_str e => escaping (giacrs_gen_to_str e w)
  | call_factorial i => escaping (giacrs_gen_factorial i w)
  end.

(** For [giacrs_gen_from_str], the constructor [giac::gen(s, ctx)], which
    runs before the [try] block, returns. *)
Definition constructor_returns (ep : entry) (w : world G) : Prop :=
  match ep with
  | call_from_str s ctx _ => exists g st, gen_of_string s ctx (giac_state w) = (Returns g, st)
  | _ => True
  end.

(** *** The four operators *)

Inductive operator := Add | Sub | Mul | Div.

Definition giacrs_gen_operator (op : operator) : loc -> loc -> M G result :=
  match op with
  | Add => @giacrs_gen_add G
  | Sub => @giacrs_gen_sub G
  | Mul => @giacrs_gen_mul G
  | Div => @giacrs_gen_div G
  end.

Definition gen_operator (op : operator) : gen G -> gen G -> outcome (gen G) :=
  match op with
  | Add => @gen_add G
  | Sub => @gen_sub G
  | Mul => @gen_mul G
  | Div => @gen_div G
  end.

(** A sequence of operator calls on one handle, each with its own second
    argument; it stops at the first call that does not return. *)
Fixpoint mutate (h : loc) (ops : list (operator * loc)) : M G unit :=
  match ops with
  | nil => ret tt
  | (op, f) :: ops' => giacrs_gen_operator op h f ;; mutate h ops'
  end.

(** *** The sign-coded predicates *)

Inductive predicate :=
  | IsPseudoprime (a : loc)
  | Legendre (a b : loc)
  | Jacobi (a b : loc).

Definition giacrs_gen_predicate (p : predicate) (res : loc) : M G result :=
  match p with
  | IsPseudoprime a => giacrs_gen_is_pseudoprime a res
  | Legendre a b => giacrs_gen_legendre a b res
  | Jacobi a b => giacrs_gen_jacobi a b res
  end.

(** What the library answers for the values the handles refer to. *)
Definition library_code (p : predicate) (w : world G) : option (outcome Z) :=
  match p with
  | IsPseudoprime a => x ← gens w !! a; Some (is_probab_prime_p x)
  | Legendre a b => x ← gens w !! a; y ← gens w !! b; Some (legendre x y)
  | Jacobi a b => x ← gens w !! a; y ← gens w !! b; Some (jacobi x y)
  end.

Definition set_int8s (f : gmap loc Z -> gmap loc Z) (w : world G) : world G :=
  World (gens w) (bools w) (f (int8s w)) (ints w) (giac_state w).

(** The text [giacrs_gen_to_str] gives for a handle, or the exception that
    leaves it; nothing when the handle is not live. *)
Definition rendering (x : loc) (w : world G) : option (outcome string) :=
  match giacrs_gen_to_str x w with
  | Done s _ => Some (Returns s)
  | Unwinds e _ => Some (Throws e)
  | Undefined => None
  end.

(** *** Ways a call ends *)

(** A call is contained when no exception of class [std::runtime_error],
    or of a class derived from it, leaves it. *)
Definition contained {A} (r : run G A) : Prop :=
  match r with
  | Unwinds e _ => derives_from_runtime_error (exn_class e) = false
  | _ => True
  end.

(** How a [SAFE_VOID_CALL] whose block raised [e] in world [w] ends. *)
Definition after_throw (e : exn) (w : world G) : run G result :=
  if derives_from_runtime_error (exn_class e)
  then Done (Some (c_str (what e))) w
  else Unwinds e w.

(** *** The statements the handler guards *)

(** The block of [SAFE_VOID_CALL], [res_code return NULL;], and the block
    of [SAFE_CALL], in which [res_code] is assigned through [res] first. *)
Definition void_block (res_code : M G unit) : M G result := res_code ;; ret NULL.

Definition block {A} (assign_res : A -> M G unit) (res_code : M G A) : M G result :=
  void_block (let* v := res_code in assign_res v).

(** An entry point with its handler taken away: the statements that
    precede the [try] block, if any, and the statements of the block.  An
    exception raised in the block leaves this computation as it was
    thrown. *)
Definition try_block (ep : entry) : M G result :=
  match ep with
  | call_from_str s ctx res =>
      let* g := giac_ctx_call (gen_of_string s ctx) in
      assign res g ;;
      let* line := giac_get (first_error_line ctx) in
      if negb (line =? 0) then
        let* msg := giac_get (parser_error ctx) in
        ret (Some (string_to_c msg))
      else
        block (assign res) (let* e := deref res in giac_ctx_call (eval e ctx))
  | call_is_zero e res ctx =>
      block (assign_bool res) (let* g := deref e in giac_ctx_call (is_zero g ctx))
  | call_to_int e res =>
      block (assign_int res) (let* g := deref e in giac_call (gen_to_int g))
  | call_gcd a b res ctx => block (assign res) (binary_ctx (@gcd G) a b ctx)
  | call_lcm a b res => block (assign res) (binary (@lcm G) a b)
  | call_ifactor e res ctx => block (assign res) (unary_ctx (@_ifactor G) e ctx)
  | call_ifactors e res ctx => block (assign res) (unary_ctx (@_ifactors G) e ctx)
  | call_maple_ifactors e res ctx =>
      block (assign res) (unary_ctx (@_maple_ifactors G) e ctx)
  | call_divisors e res ctx => block (assign res) (unary_ctx (@idivis G) e ctx)
  | call_iquo a b res => block (assign res) (binary (@iquo G) a b)
  | call_iquorem a b q res =>
      block (assign res)
        (let* x := deref a in
         let* y := deref b in
         let* _ := deref q in
         let* qr := giac_call (irem x y) in
         assign q (fst qr) ;;
         ret (snd qr))
  | call_irem a b res =>
      with_local_gen (fun q =>
        block (assign res)
          (let* x := deref a in
           let* y := deref b in
           let* _ := deref q in
           let* qr := giac_call (irem x y) in
           assign q (fst qr) ;;
           ret (snd qr)))
  | call_even a res ctx =>
      block (assign_bool res)
        (let* e := unary_ctx (@_even G) a ctx in
         let* z := giac_ctx_call (is_zero e (context0 G)) in
         ret (negb z))
  | call_odd a res ctx =>
      block (assign_bool res)
        (let* e := unary_ctx (@_odd G) a ctx in
         let* z := giac_ctx_call (is_zero e (context0 G)) in
         ret (negb z))
  | call_is_pseudoprime a res =>
      block (assign_int8 res) (let* x := deref a in giac_call (is_probab_prime_p x))
  | call_nextprime a res => block (assign res) (unary (@nextprime G) a)
  | call_prevprime a res => block (assign res) (unary (@prevprime G) a)
  | call_nthprime a res ctx =>
      let* p := unary_ctx (@_ithprime G) a ctx in
      assign res p ;;
      let* r := deref res in
      if is_undef r then throw (runtime_error nthprime_message)
      else ret NULL
  | call_iegcd a b u v d =>
      void_block
        (let* x := deref a in
         let* y := deref b in
         let* u0 := deref u in
         let* v0 := deref v in
         let* d0 := deref d in
         let left := egcd x y u0 v0 d0 in
         assign u (fst (fst (fst left))) ;;
         assign v (snd (fst (fst left))) ;;
         assign d (snd (fst left)) ;;
         giac_call (snd left))
  | call_iabcuv a b c u v ctx =>
      void_block
        (let* x := deref a in
         let* y := deref b in
         let* z := deref c in
         let* vec := giac_ctx_call (iabcuv x y z ctx) in
         let* v0 := giac_call (gen_at vec 0) in
         assign u v0 ;;
         let* v1 := giac_call (gen_at vec 1) in
         assign v v1)
  | call_ichinrem a amod b bmod res =>
      block (assign res)
        (let* x := deref a in
         let* y := deref b in
         let* xm := deref amod in
         let* ym := deref bmod in
         giac_call (ichinrem x y xm ym))
  | call_pa2b2 p a b ctx =>
      void_block
        (let* vec := unary_ctx (@pa2b2 G) p ctx in
         let* v0 := giac_call (gen_at vec 0) in
         assign a v0 ;;
         let* v1 := giac_call (gen_at vec 1) in
         assign b v1)
  | call_euler a res ctx => block (assign res) (unary_ctx (@euler G) a ctx)
  | call_legendre a b res => block (assign_int8 res) (binary (@legendre G) a b)
  | call_jacobi a b res => block (assign_int8 res) (binary (@jacobi G) a b)
  | call_comb n k res ctx => block (assign res) (binary_ctx (@comb G) n k ctx)
  | call_perm n k res ctx =>
      let* x := deref n in
      let* y := deref k in
      block (assign res) (giac_ctx_call (_perm (gen_of_vecteur (x :: y :: nil)) ctx))
  | call_rand n res ctx => block (assign res) (unary_ctx (@_rand G) n ctx)
  | call_float2rational n res ctx =>
      block (assign res) (unary_ctx (@_float2rational G) n ctx)
  | call_add res f => block (assign res) (binary (@gen_add G) res f)
  | call_sub res f => block (assign res) (binary (@gen_sub G) res f)
  | call_mul res f => block (assign res) (binary (@gen_mul G) res f)
  | call_div res f => block (assign res) (binary (@gen_div G) res f)
  | call_factor e res ctx => block (assign res) (unary_ctx (@_factor G) e ctx)
  | call_simplify e res ctx => block (assign res) (unary_ctx (@simplify G) e ctx)
  | call_det e res ctx => block (assign res) (unary_ctx (@_det G) e ctx)
  end.

End Entries.

(** ** Footprints *)

Section Effects.

Context (G : Giac).

(** The addresses a call uses, by pointee type. *)
Record slots := Slots {
  gen_slots : list loc;
  bool_slots : list loc;
  int8_slots : list loc;
  int_slots : list loc
}.

Definition gens_only (l : list loc) : slots := Slots l nil nil nil.

(** The slots an entry point stores through. *)
Definition outputs (ep : entry G) : slots :=
  match ep with
  | call_from_str _ _ res => gens_only (res :: nil)
  | call_is_zero _ res _ => Slots nil (res :: nil) nil nil
  | call_to_int _ _ res => Slots nil nil nil (res :: nil)
  | call_gcd _ _ res _ => gens_only (res :: nil)
  | call_lcm _ _ _ res => gens_only (res :: nil)
  | call_ifactor _ res _ => gens_only (res :: nil)
  | call_ifactors _ res _ => gens_only (res :: nil)
  | call_maple_ifactors _ res _ => gens_only (res :: nil)
  | call_divisors _ res _ => gens_only (res :: nil)
  | call_iquo _ _ _ res => gens_only (res :: nil)
  | call_iquorem _ _ _ q res => gens_only (q :: res :: nil)
  | call_irem _ _ _ res => gens_only (res :: nil)
  | call_even _ res _ => Slots nil (res :: nil) nil nil
  | call_odd _ res _ => Slots nil (res :: nil) nil nil
  | call_is_pseudoprime _ _ res => Slots nil nil (res :: nil) nil
  | call_nextprime _ _ res => gens_only (res :: nil)
  | call_prevprime _ _ res => gens_only (res :: nil)
  | call_nthprime _ res _ => gens_only (res :: nil)
  | call_iegcd _ _ _ u v d => gens_only (u :: v :: d :: nil)
  | call_iabcuv _ _ _ u v _ => gens_only (u :: v :: nil)
  | call_ichinrem _ _ _ _ _ res => gens_only (res :: nil)
  | call_pa2b2 _ a b _ => gens_only (a :: b :: nil)
  | call_euler _ res _ => gens_only (res :: nil)
  | call_legendre _ _ _ res => Slots nil nil (res :: nil) nil
  | call_jacobi _ _ _ res => Slots nil nil (res :: nil) nil
  | call_comb _ _ res _ => gens_only (res :: nil)
  | call_perm _ _ res _ => gens_only (res :: nil)
  | call_rand _ res _ => gens_only (res :: nil)
  | call_float2rational _ res _ => gens_only (res :: nil)
  | call_add _ res _ => gens_only (res :: nil)
  | call_sub _ res _ => gens_only (res :: nil)
  | call_mul _ res _ => gens_only (res :: nil)
  | call_div _ res _ => gens_only (res :: nil)
  | call_factor _ res _ => gens_only (res :: nil)
  | call_simplify _ res _ => gens_only (res :: nil)
  | call_det _ res _ => gens_only (res :: nil)
  end.

(** The pointers an entry point dereferences itself: the value handles
    and the output cells it is given.  The context pointer, and the text
    of [giacrs_gen_from_str], are not among them: the wrapper hands them to
    the library unread, and the heap of this embedding holds neither
    contexts nor texts. *)
Definition handles (ep : entry G) : slots :=
  match ep with
  | call_from_str _ _ res => gens_only (res :: nil)
  | call_is_zero e res _ => Slots (e :: nil) (res :: nil) nil nil
  | call_to_int _ e res => Slots (e :: nil) nil nil (res :: nil)
  | call_gcd a b res _ => gens_only (a :: b :: res :: nil)
  | call_lcm _ a b res => gens_only (a :: b :: res :: nil)
  | call_ifactor e res _ => gens_only (e :: res :: nil)
  | call_ifactors e res _ => gens_only (e :: res :: nil)
  | call_maple_ifactors e res _ => gens_only (e :: res :: nil)
  | call_divisors e res _ => gens_only (e :: res :: nil)
  | call_iquo _ a b res => gens_only (a :: b :: res :: nil)
  | call_iquorem _ a b q res => gens_only (a :: b :: q :: res :: nil)
  | call_irem _ a b res => gens_only (a :: b :: res :: nil)
  | call_even a res _ => Slots (a :: nil) (res :: nil) nil nil
  | call_odd a res _ => Slots (a :: nil) (res :: nil) nil nil
  | call_is_pseudoprime _ a res => Slots (a :: nil) nil (res :: nil) nil
  | call_nextprime _ a res => gens_only (a :: res :: nil)
  | call_prevprime _ a res => gens_only (a :: res :: nil)
  | call_nthprime a res _ => gens_only (a :: res :: nil)
  | call_iegcd _ a b u v d => gens_only (a :: b :: u :: v :: d :: nil)
  | call_iabcuv a b c u v _ => gens_only (a :: b :: c :: u :: v :: nil)
  | call_ichinrem _ a amod b bmod res => gens_only (a :: amod :: b :: bmod :: res :: nil)
  | call_pa2b2 p a b _ => gens_only (p :: a :: b :: nil)
  | call_euler a res _ => gens_only (a :: res :: nil)
  | call_legendre _ a b res => Slots (a :: b :: nil) nil (res :: nil) nil
  | call_jacobi _ a b res => Slots (a :: b :: nil) nil (res :: nil) nil
  | call_comb n k res _ => gens_only (n :: k :: res :: nil)
  | call_perm n k res _ => gens_only (n :: k :: res :: nil)
  | call_rand n res _ => gens_only (n :: res :: nil)
  | call_float2rational n res _ => gens_only (n :: res :: nil)
  | call_add _ res f => gens_only (res :: f :: nil)
  | call_sub _ res f => gens_only (res :: f :: nil)
  | call_mul _ res f => gens_only (res :: f :: nil)
  | call_div _ res f => gens_only (res :: f :: nil)
  | call_factor e res _ => gens_only (e :: res :: nil)
  | call_simplify e res _ => gens_only (e :: res :: nil)
  | call_det e res _ => gens_only (e :: res :: nil)
  end.

(** The entry points whose parameters are value handles and output cells
    only: no context pointer and no text. *)
Definition takes_values_only (ep : entry G) : bool :=
  match ep with
  | call_to_int _ _ _ | call_lcm _ _ _ _ | call_iquo _ _ _ _
  | call_iquorem _ _ _ _ _ | call_irem _ _ _ _
  | call_is_pseudoprime _ _ _ | call_nextprime _ _ _ | call_prevprime _ _ _
  | call_iegcd _ _ _ _ _ _ | call_ichinrem _ _ _ _ _ _
  | call_legendre _ _ _ _ | call_jacobi _ _ _ _
  | call_add _ _ _ | call_sub _ _ _ | call_mul _ _ _ | call_div _ _ _ => true
  | _ => false
  end.

(** A store after a call is within [S] of the store before it when the
    same addresses are live and only addresses of [S] hold another
    object. *)
Definition map_within {A} (S : list loc) (m m' : gmap loc A) : Prop :=
  dom m' = dom m /\ forall h, h ∉ S -> m' !! h = m !! h.

Definition within (o : slots) (w w' : world G) : Prop :=
  map_within (gen_slots o) (gens w) (gens w') /\
  map_within (bool_slots o) (bools w) (bools w') /\
  map_within (int8_slots o) (int8s w) (int8s w') /\
  map_within (int_slots o) (ints w) (ints w').

(** Every pointer of [u] refers to a live object of its type. *)
Definition live (u : slots) (w : world G) : Prop :=
  (forall h, h ∈ gen_slots u -> is_Some (gens w !! h)) /\
  (forall h, h ∈ bool_slots u -> is_Some (bools w !! h)) /\
  (forall h, h ∈ int8_slots u -> is_Some (int8s w !! h)) /\
  (forall h, h ∈ int_slots u -> is_Some (ints w !! h)).

(** A computation behaves for outputs [o] and pointers [u]: however it
    ends, the world is within [o] of the one it started in, and it is
    undefined only if some pointer of [u] is not live. *)
Definition behaves {A} (o u : slots) (m : M G A) : Prop :=
  forall w,
    match m w with
    | Done _ w' | Unwinds _ w' => within o w w'
    | Undefined => ~ live u w
    end.

Definition with_gen (q : loc) (s : slots) : slots :=
  Slots (q :: gen_slots s) (bool_slots s) (int8_slots s) (int_slots s).

(** The four stores of two worlds hold the same objects. *)
Definition same_stores (w w' : world G) : Prop :=
  gens w' = gens w /\ bools w' = bools w /\ int8s w' = int8s w /\ ints w' = ints w.

(** A computation that stores nothing, one that no exception leaves, and
    one that has stored nothing whenever an exception leaves it. *)
Definition stores_nothing {A} (m : M G A) : Prop :=
  forall w, match m w with
            | Done _ w' | Unwinds _ w' => same_stores w w'
            | Undefined => True
            end.

Definition never_unwinds {A} (m : M G A) : Prop :=
  forall w, match m w with
            | Unwinds _ _ => False
            | _ => True
            end.

Definition unwinds_clean {A} (m : M G A) : Prop :=
  forall w, match m w with
            | Unwinds _ w' => same_stores w w'
            | _ => True
            end.

(** A call fails clean when an error string or an exception comes with
    the four stores as they were. *)
Definition fails_clean (m : M G result) : Prop :=
  forall w, match m w with
            | Done (Some _) w' | Unwinds _ w' => same_stores w w'
            | _ => True
            end.

(** The entry points in which an object of the caller is assigned only
    once the last call into the library has returned.  Six are not of this
    kind: [giacrs_gen_from_str] and [giacrs_gen_nthprime] assign the slot
    before they test the result, [giacrs_gen_iabcuv] and [giacrs_gen_pa2b2]
    assign the first slot before they index the vector a second time, and
    [giacrs_gen_iquorem] and [giacrs_gen_iegcd] hand the library references
    to output objects of the caller inside the [try] block.  The quotient
    [giacrs_gen_irem] hands over is its own local object. *)
Definition stores_last (ep : entry G) : bool :=
  match ep with
  | call_from_str _ _ _ | call_nthprime _ _ _
  | call_iabcuv _ _ _ _ _ _ | call_pa2b2 _ _ _ _
  | call_iquorem _ _ _ _ _ | call_iegcd _ _ _ _ _ _ => false
  | _ => true
  end.

(** *** The functions that return a new handle *)

Inductive constructor :=
  | Allocate
  | From_int (i : Z)
  | From_float (f : c_float G)
  | From_double (d : c_double G)
  | Factorial (i : N)
  | Clone (e : loc).

Definition construct (c : constructor) : M G loc :=
  match c with
  | Allocate => @giacrs_gen_allocate G
  | From_int i => @giacrs_gen_from_int G i
  | From_float f => @giacrs_gen_from_float G f
  | From_double d => @giacrs_gen_from_double G d
  | Factorial i => @giacrs_gen_factorial G i
  | Clone e => @giacrs_gen_clone G e
  end.

(** The value the new object is constructed from, when there is one. *)
Definition constructed (c : constructor) (w : world G) : option (gen G) :=
  match c with
  | Allocate => Some (gen_default G)
  | From_int i => Some (gen_of_int G i)
  | From_float f => Some (gen_of_float f)
  | From_double d => Some (gen_of_double d)
  | Factorial i => match factorial G i with
                   | Returns f => Some f
                   | Throws _ => None
                   end
  | Clone e => gens w !! e
  end.

End Effects.

(** Whether a string holds a zero byte. *)
Fixpoint has_zero_byte (s : string) : bool :=
  match s with
  | EmptyString => false
  | String c s' => Ascii.eqb c Ascii.zero || has_zero_byte s'
  end.

(** Unfolding of the monad, for the calls whose handles are known. *)
Ltac unfold_monad :=
  unfold SAFE_CALL, SAFE_VOID_CALL, try_catch_runtime_error, binary, binary_ctx,
    unary, unary_ctx, bind, deref, giac_call, giac_ctx_call, giac_get, assign,
    assign_int8, ret, throw, after_throw, return_what.

Ltac case_class :=
  match goal with
  | |- context [derives_from_runtime_error ?c] =>
      destruct (derives_from_runtime_error c)
  end.

(** * Properties *)

(** ** The monad and the macros *)

Section MonadFacts.

Context {G : Giac}.

Implicit Types w : world G.

Lemma bind_Done {A B} (m : M G A) (k : A -> M G B) w a w' :
  m w = Done a w' -> bind m k w = k a w'.
Proof. unfold bind. intros ->. reflexivity. Qed.

Lemma bind_Unwinds {A B} (m : M G A) (k : A -> M G B) w e w' :
  m w = Unwinds e w' -> bind m k w = Unwinds e w'.
Proof. unfold bind. intros ->. reflexivity. Qed.

(** The heap of gens, at fixed types. *)
Lemma gens_insert_eq (m : gmap loc (gen G)) p g : <[p:=g]> m !! p = Some g.
Proof. apply lookup_insert_eq. Qed.

Lemma gens_insert_ne (m : gmap loc (gen G)) p h g : p <> h -> <[p:=g]> m !! h = m !! h.
Proof. apply lookup_insert_ne. Qed.

Lemma gens_insert_insert (m : gmap loc (gen G)) p g g' :
  <[p:=g']> (<[p:=g]> m) = <[p:=g']> m.
Proof. apply insert_insert_eq. Qed.

Lemma deref_Some p w g : gens w !! p = Some g -> deref p w = Done g w.
Proof. unfold deref. intros ->. reflexivity. Qed.

Lemma assign_live p g w :
  is_Some (gens w !! p) -> assign p g w = Done tt (set_gens (insert p g) w).
Proof. unfold assign. intros [x ->]. reflexivity. Qed.

Lemma giac_call_Returns {A} (o : outcome A) a w :
  o = Returns a -> giac_call (G := G) o w = Done a w.
Proof. intros ->. reflexivity. Qed.

Lemma giac_ctx_call_Returns {A} (f : lib_state G -> outcome A * lib_state G) w a st :
  f (giac_state w) = (Returns a, st) -> giac_ctx_call f w = Done a (set_giac_state st w).
Proof. unfold giac_ctx_call. intros ->. reflexivity. Qed.

(** What the handler of [SAFE_VOID_CALL] does with each way its block can
    end. *)
Lemma try_catch_Done {A} (body : M G A) handler w a w' :
  body w = Done a w' -> try_catch_runtime_error body handler w = Done a w'.
Proof. unfold try_catch_runtime_error. intros ->. reflexivity. Qed.

Lemma try_catch_caught {A} (body : M G A) handler w e w' :
  body w = Unwinds e w' ->
  derives_from_runtime_error (exn_class e) = true ->
  try_catch_runtime_error body handler w = handler e w'.
Proof. unfold try_catch_runtime_error. intros -> ->. reflexivity. Qed.

Lemma try_catch_passed {A} (body : M G A) handler w e w' :
  body w = Unwinds e w' ->
  derives_from_runtime_error (exn_class e) = false ->
  try_catch_runtime_error body handler w = Unwinds e w'.
Proof. unfold try_catch_runtime_error. intros -> ->. reflexivity. Qed.

Lemma SAFE_VOID_CALL_Done block w w' :
  block w = Done tt w' -> SAFE_VOID_CALL block w = Done NULL w'.
Proof.
  intros H. unfold SAFE_VOID_CALL.
  apply try_catch_Done. rewrite (bind_Done _ H). reflexivity.
Qed.

Lemma SAFE_VOID_CALL_caught block w e w' :
  block w = Unwinds e w' ->
  derives_from_runtime_error (exn_class e) = true ->
  SAFE_VOID_CALL block w = Done (Some (c_str (what e))) w'.
Proof.
  intros H Hc. unfold SAFE_VOID_CALL.
  erewrite try_catch_caught; eauto using bind_Unwinds.
Qed.

Lemma SAFE_VOID_CALL_passed block w e w' :
  block w = Unwinds e w' ->
  derives_from_runtime_error (exn_class e) = false ->
  SAFE_VOID_CALL block w = Unwinds e w'.
Proof.
  intros H Hc. unfold SAFE_VOID_CALL.
  apply try_catch_passed; auto using bind_Unwinds.
Qed.

Lemma contained_try_catch (body : M G result) w :
  contained (try_catch_runtime_error body return_what w).
Proof.
  unfold try_catch_runtime_error.
  destruct (body w) as [r w'|e w'|]; simpl; auto.
  destruct (derives_from_runtime_error (exn_class e)) eqn:E; simpl; auto.
Qed.

Lemma contained_SAFE_VOID_CALL block w : contained (SAFE_VOID_CALL block w).
Proof. apply contained_try_catch. Qed.

Lemma contained_SAFE_CALL {A} (assign_res : A -> M G unit) res_code w :
  contained (SAFE_CALL assign_res res_code w).
Proof. apply contained_SAFE_VOID_CALL. Qed.

Lemma contained_after_deref {A} p (k : gen G -> M G A) w :
  (forall x, contained (k x w)) -> contained (bind (deref p) k w).
Proof.
  intros H. unfold bind, deref. destruct (gens w !! p); simpl; auto.
Qed.

Lemma contained_with_local_gen {A} (body : loc -> M G A) w :
  (forall q w0, contained (body q w0)) -> contained (with_local_gen body w).
Proof.
  intros H. unfold with_local_gen.
  match goal with |- context [body ?q ?w0] => specialize (H q w0); destruct (body q w0) end;
    simpl in *; auto.
Qed.

Lemma contained_from_str s ctx res w :
  constructor_returns (call_from_str s ctx res) w ->
  contained (giacrs_gen_from_str s ctx res w).
Proof.
  intros (g & st & Hg). unfold giacrs_gen_from_str.
  rewrite (bind_Done _ (giac_ctx_call_Returns Hg)).
  unfold bind at 1. destruct (assign res g _) as [[] w1|e w1|] eqn:Ha; simpl; auto.
  - unfold bind at 1, giac_get at 1.
    destruct (negb _).
    + simpl. exact I.
    + apply contained_SAFE_CALL.
  - unfold assign in Ha. destruct (gens _ !! res); discriminate.
Qed.

End MonadFacts.

(** ** C1: which exceptions stop at the boundary *)

Section Guarded.

Context {G : Giac}.

Implicit Types w : world G.

(** A block under the handler of [SAFE_VOID_CALL]. *)
Lemma guarded_run (body : M G result) w :
  try_catch_runtime_error body return_what w =
  match body w with
  | Done r w' => Done r w'
  | Unwinds e w' =>
      if derives_from_runtime_error (exn_class e)
      then Done (Some (c_str (what e))) w'
      else Unwinds e w'
  | Undefined => Undefined
  end.
Proof. unfold try_catch_runtime_error. destruct (body w); reflexivity. Qed.

(** Statements that no exception leaves, ahead of the [try] block. *)
Lemma guarded_after {A} (m : M G A) (k k' : A -> M G result) w :
  match m w with Unwinds _ _ => False | _ => True end ->
  (forall a w1,
     k a w1 =
     match k' a w1 with
     | Done r w' => Done r w'
     | Unwinds e w' =>
         if derives_from_runtime_error (exn_class e)
         then Done (Some (c_str (what e))) w'
         else Unwinds e w'
     | Undefined => Undefined
     end) ->
  bind m k w =
  match bind m k' w with
  | Done r w' => Done r w'
  | Unwinds e w' =>
      if derives_from_runtime_error (exn_class e)
      then Done (Some (c_str (what e))) w'
      else Unwinds e w'
  | Undefined => Undefined
  end.
Proof.
  intros Hm Hk. unfold bind.
  destruct (m w) as [a w1|e w1|]; [apply Hk|contradiction|reflexivity].
Qed.

Lemma guarded_with_local_gen (body body' : loc -> M G result) w :
  (forall q w0,
     body q w0 =
     match body' q w0 with
     | Done r w' => Done r w'
     | Unwinds e w' =>
         if derives_from_runtime_error (exn_class e)
         then Done (Some (c_str (what e))) w'
         else Unwinds e w'
     | Undefined => Undefined
     end) ->
  with_local_gen body w =
  match with_local_gen body' w with
  | Done r w' => Done r w'
  | Unwinds e w' =>
      if derives_from_runtime_error (exn_class e)
      then Done (Some (c_str (what e))) w'
      else Unwinds e w'
  | Undefined => Undefined
  end.
Proof.
  intros H. unfold with_local_gen. rewrite H.
  match goal with |- context [body' ?q ?w0] => destruct (body' q w0) as [r w'|e w'|] end;
    try reflexivity.
  destruct (derives_from_runtime_error (exn_class e)); reflexivity.
Qed.

Lemma deref_returns p w :
  match deref (G := G) p w with Unwinds _ _ => False | _ => True end.
Proof. unfold deref. destruct (gens w !! p); exact I. Qed.

Lemma assign_returns p g w :
  match assign (G := G) p g w with Unwinds _ _ => False | _ => True end.
Proof. unfold assign. destruct (gens w !! p); exact I. Qed.

End Guarded.

(** C1, amended.  Every entry point that returns [result] is its own
    statements under a handler for [std::runtime_error]: the call ends as
    the statements of its [try] block end, except that an exception of
    class [std::runtime_error], or of a class derived from it, which leaves
    the block is replaced by the return of a copy of its [what()] text.
    This holds for the blocks of [SAFE_VOID_CALL] and [SAFE_CALL] and for
    the block [giacrs_gen_nthprime] writes out, the exception it throws
    itself included, once the constructor that [giacrs_gen_from_str] calls
    ahead of its block has returned.  So no exception of these classes
    unwinds to the caller; one of any other class passes through. *)
Theorem runtime_errors_stop_at_boundary (G : Giac) (ep : entry G) (w : world G) :
  constructor_returns ep w ->
  call ep w =
    match try_block ep w with
    | Done r w' => Done r w'
    | Unwinds e w' =>
        if derives_from_runtime_error (exn_class e)
        then Done (Some (c_str (what e))) w'
        else Unwinds e w'
    | Undefined => Undefined
    end /\
  contained (call ep w).
Proof.
  intros Hc. split.
  - destruct ep;
      match goal with
      | |- _ = match try_block ?e ?w0 with _ => _ end =>
          try exact (guarded_run (try_block e) w0)
      end.
    + destruct Hc as (g & st & Hg). simpl. unfold giacrs_gen_from_str.
      apply guarded_after.
      { unfold giac_ctx_call. rewrite Hg. exact I. }
      intros g' w1. apply guarded_after; [apply assign_returns|].
      intros [] w2. apply guarded_after; [exact I|].
      intros line w3. destruct (negb (line =? 0)).
      * apply guarded_after; [exact I|]. intros msg w4. reflexivity.
      * exact (guarded_run (block _ _) w3).
    + simpl. unfold giacrs_gen_irem. apply guarded_with_local_gen.
      intros q w0. exact (guarded_run (block _ _) w0).
    + simpl. unfold giacrs_gen_perm.
      apply guarded_after; [apply deref_returns|]. intros x w1.
      apply guarded_after; [apply deref_returns|]. intros y w2.
      exact (guarded_run (block _ _) w2).
  - destruct ep; simpl call;
      try apply contained_SAFE_CALL;
      try apply contained_SAFE_VOID_CALL;
      try apply contained_try_catch.
    + apply contained_from_str. exact Hc.
    + apply contained_with_local_gen. intros. apply contained_SAFE_CALL.
    + unfold giacrs_gen_perm.
      apply contained_after_deref. intros x.
      apply contained_after_deref. intros y.
      apply contained_SAFE_CALL.
Qed.

(** The text "1/0" in the reference instance: the constructor returns an
    unevaluated quotient, and the division by zero raised by the
    evaluation inside the block comes back as the text of the exception. *)
Lemma runtime_errors_stop_at_boundary_witness :
  constructor_returns (call_from_str (G := RefGiac) "1/0" O 1) (ref_world (RInt 0 :: nil)) /\
  call (call_from_str (G := RefGiac) "1/0" O 1) (ref_world (RInt 0 :: nil))
    = Done (Some "Division by 0")
        (set_gens (insert 1%positive (RQuot 1 0)) (ref_world (RInt 0 :: nil))) /\
  contained (call (call_from_str (G := RefGiac) "1/0" O 1) (ref_world (RInt 0 :: nil))).
Proof.
  assert (Hc : constructor_returns (call_from_str (G := RefGiac) "1/0" O 1)
                 (ref_world (RInt 0 :: nil))).
  { exists (RQuot 1 0), (RState 0 "" 0). reflexivity. }
  split; [exact Hc|].
  exact (runtime_errors_stop_at_boundary Hc).
Defined.

(** C1 as stated fails twice over.  A [std::runtime_error] raised by
    [print] leaves [giacrs_gen_to_str], which has no handler; and a
    [std::logic_error] raised by [gcd] leaves [giacrs_gen_gcd], whose
    handler names [std::runtime_error] only. *)
Lemma exceptions_do_cross_the_boundary :
  escapes_from (call_to_str _ 1) (throwing_world (runtime_error "print failed"))
    = Some (runtime_error "print failed") /\
  escapes_from (with_result (call_gcd (G := ThrowingGiac _) 1 2 1 tt))
      (throwing_world (Thrown std_logic_error "gcd failed"))
    = Some (Thrown std_logic_error "gcd failed").
Proof. split; reflexivity. Qed.

(** ** What a call with live handles does *)

Section Runs.

Context {G : Giac}.

Implicit Types (w : world G) (a b q res f : loc).

Lemma SAFE_VOID_CALL_Unwinds block w e w' :
  block w = Unwinds e w' -> SAFE_VOID_CALL block w = after_throw e w'.
Proof.
  intros H. unfold after_throw.
  destruct (derives_from_runtime_error (exn_class e)) eqn:E.
  - now apply SAFE_VOID_CALL_caught.
  - now apply SAFE_VOID_CALL_passed.
Qed.

(** A [SAFE_CALL] into a gen slot whose right-hand side reads two live
    handles and calls a context-free library function. *)
Lemma SAFE_CALL_binary (op : gen G -> gen G -> outcome (gen G)) a b res w x y :
  gens w !! a = Some x -> gens w !! b = Some y -> is_Some (gens w !! res) ->
  SAFE_CALL (assign res) (binary op a b) w =
  match op x y with
  | Returns z => Done NULL (set_gens (insert res z) w)
  | Throws e => after_throw e w
  end.
Proof.
  intros Ha Hb [r Hres]. unfold_monad.
  rewrite Ha, Hb. destruct (op x y) as [z|e].
  - rewrite Hres. reflexivity.
  - case_class; reflexivity.
Qed.

Lemma SAFE_CALL_binary_ctx
    (op : gen G -> gen G -> ctxptr G -> lib_state G -> outcome (gen G) * lib_state G)
    a b res ctx w x y :
  gens w !! a = Some x -> gens w !! b = Some y -> is_Some (gens w !! res) ->
  SAFE_CALL (assign res) (binary_ctx op a b ctx) w =
  match op x y ctx (giac_state w) with
  | (Returns z, st) => Done NULL (set_gens (insert res z) (set_giac_state st w))
  | (Throws e, st) => after_throw e (set_giac_state st w)
  end.
Proof.
  intros Ha Hb [r Hres]. unfold_monad.
  rewrite Ha, Hb. destruct (op x y ctx (giac_state w)) as [[z|e] st].
  - simpl. rewrite Hres. reflexivity.
  - case_class; reflexivity.
Qed.

Lemma operator_run op res f w x y :
  gens w !! res = Some x -> gens w !! f = Some y ->
  giacrs_gen_operator op res f w =
  match gen_operator op x y with
  | Returns z => Done NULL (set_gens (insert res z) w)
  | Throws e => after_throw e w
  end.
Proof.
  intros Hres Hf.
  destruct op; simpl; apply SAFE_CALL_binary; eauto.
Qed.

(** The quotient goes to [q] first, the remainder to [res] afterwards. *)
Lemma iquorem_run a b q res w x y :
  gens w !! a = Some x -> gens w !! b = Some y ->
  is_Some (gens w !! q) -> is_Some (gens w !! res) ->
  giacrs_gen_iquorem a b q res w =
  match irem x y with
  | Returns (qv, rv) => Done NULL (set_gens (insert res rv) (set_gens (insert q qv) w))
  | Throws e => after_throw e w
  end.
Proof.
  intros Ha Hb [q0 Hq] Hres. unfold giacrs_gen_iquorem. unfold_monad.
  rewrite Ha, Hb, Hq. destruct (irem x y) as [[qv rv]|e].
  - rewrite Hq. simpl.
    assert (is_Some (<[q:=qv]> (gens w) !! res)) as [r ->]
      by (apply lookup_insert_is_Some'; now right).
    reflexivity.
  - case_class; reflexivity.
Qed.

End Runs.

(** ** C2: parsing and evaluating a text *)

(** C2, amended.  Let the constructor return the expression [g] for the
    text and leave the library in state [st], and let the output slot be
    live.  If the parser reported an error line, the call returns the
    parser's diagnostic as a non-null string, the evaluator is not called
    and the slot holds [g], unevaluated.  If it reported none, [g] is
    evaluated: when the evaluation returns [v], the slot holds [v] and the
    call returns NULL; when it raises a [std::runtime_error], the call
    returns the message of the exception and the slot still holds [g]. *)
Theorem from_str_outcome (G : Giac) (s : string) (ctx : ctxptr G) (res : loc)
    (w : world G) (g : gen G) (st : lib_state G) :
  gen_of_string s ctx (giac_state w) = (Returns g, st) ->
  is_Some (gens w !! res) ->
  giacrs_gen_from_str s ctx res w =
    if first_error_line ctx st =? 0 then
      match eval g ctx st with
      | (Returns v, st') =>
          Done NULL (set_gens (insert res v) (set_giac_state st' w))
      | (Throws e, st') =>
          after_throw e (set_gens (insert res g) (set_giac_state st' w))
      end
    else
      Done (Some (string_to_c (parser_error ctx st)))
           (set_gens (insert res g) (set_giac_state st w)).
Proof.
  intros Hparse [r Hres]. unfold giacrs_gen_from_str. unfold_monad.
  rewrite Hparse. simpl. rewrite Hres. simpl.
  destruct (first_error_line ctx st =? 0); simpl; [|reflexivity].
  rewrite gens_insert_eq. simpl.
  destruct (eval g ctx st) as [[v|e] st']; simpl.
  - rewrite gens_insert_eq. unfold set_gens. simpl.
    rewrite gens_insert_insert. reflexivity.
  - case_class; reflexivity.
Qed.

(** The text "12x" in the reference instance is a syntax error. *)
Lemma from_str_outcome_witness :
  gen_of_string (g := RefGiac) "12x" O (giac_state (ref_world (RInt 0 :: nil)))
    = (Returns RUndef, RState 1 "syntax error line 1 near 12x" 0) /\
  is_Some (gens (ref_world (RInt 0 :: nil)) !! 1%positive) /\
  giacrs_gen_from_str (G := RefGiac) "12x" O 1 (ref_world (RInt 0 :: nil))
    = Done (Some "syntax error line 1 near 12x")
        (set_gens (insert 1%positive RUndef)
           (set_giac_state (G := RefGiac) (RState 1 "syntax error line 1 near 12x" 0)
              (ref_world (RInt 0 :: nil)))).
Proof.
  assert (H1 : gen_of_string (g := RefGiac) "12x" O (giac_state (ref_world (RInt 0 :: nil)))
               = (Returns RUndef, RState 1 "syntax error line 1 near 12x" 0))
    by reflexivity.
  assert (H2 : is_Some (gens (ref_world (RInt 0 :: nil)) !! 1%positive))
    by (exists (RInt 0); reflexivity).
  split; [exact H1|]. split; [exact H2|].
  exact (from_str_outcome H1 H2).
Defined.

(** C2 as stated fails for a valid text whose evaluation fails: in the
    reference instance the parser accepts "1/0" (no error line), and the
    call returns the message of the division by zero, not NULL; the slot
    holds the unevaluated quotient. *)
Lemma valid_text_may_return_an_error :
  first_error_line (g := RefGiac) O
      (snd (gen_of_string (g := RefGiac) "1/0" O (giac_state (ref_world (RInt 0 :: nil)))))
    = 0 /\
  giacrs_gen_from_str (G := RefGiac) "1/0" O 1 (ref_world (RInt 0 :: nil))
    = Done (Some "Division by 0")
        (set_gens (insert 1%positive (RQuot 1 0)) (ref_world (RInt 0 :: nil))).
Proof. split; reflexivity. Qed.

(** ** C3: the operators work in place *)

(** C3, amended.  For two distinct live handles [res] and [f] holding [x]
    and [y]: when the library's operator returns [z], the call returns
    NULL, [res] holds [z] and [f] still holds [y], as does every handle
    other than [res]; when the operator raises, nothing is written. *)
Theorem operator_in_place (G : Giac) (op : operator) (res f : loc) (w : world G)
    (x y : gen G) :
  gens w !! res = Some x ->
  gens w !! f = Some y ->
  res <> f ->
  match gen_operator op x y with
  | Returns z =>
      exists w', giacrs_gen_operator op res f w = Done NULL w' /\
                 gens w' !! res = Some z /\
                 gens w' !! f = Some y /\
                 forall h, h <> res -> gens w' !! h = gens w !! h
  | Throws e => giacrs_gen_operator op res f w = after_throw e w
  end.
Proof.
  intros Hres Hf Hne. rewrite (operator_run op Hres Hf).
  destruct (gen_operator op x y) as [z|e]; [|reflexivity].
  eexists. split; [reflexivity|]. simpl.
  split; [apply lookup_insert_eq|].
  split; [rewrite lookup_insert_ne; auto|].
  intros h Hh. rewrite lookup_insert_ne; auto.
Qed.

Lemma operator_in_place_witness :
  gens (ref_world (RInt 3 :: RInt 4 :: nil)) !! 1%positive = Some (RInt 3) /\
  gens (ref_world (RInt 3 :: RInt 4 :: nil)) !! 2%positive = Some (RInt 4) /\
  1%positive <> 2%positive /\
  exists w', giacrs_gen_operator (G := RefGiac) Mul 1 2 (ref_world (RInt 3 :: RInt 4 :: nil))
               = Done NULL w' /\
             gens w' !! 1%positive = Some (RInt 12) /\
             gens w' !! 2%positive = Some (RInt 4) /\
             forall h, h <> 1%positive ->
                       gens w' !! h = gens (ref_world (RInt 3 :: RInt 4 :: nil)) !! h.
Proof.
  assert (H1 : gens (ref_world (RInt 3 :: RInt 4 :: nil)) !! 1%positive = Some (RInt 3))
    by reflexivity.
  assert (H2 : gens (ref_world (RInt 3 :: RInt 4 :: nil)) !! 2%positive = Some (RInt 4))
    by reflexivity.
  assert (H3 : 1%positive <> 2%positive) by discriminate.
  split; [exact H1|]. split; [exact H2|]. split; [exact H3|].
  exact (operator_in_place (G := RefGiac) Mul H1 H2 H3).
Defined.

(** C3 as stated fails when the same handle is passed twice: the second
    argument handle then refers to 1 before the call and to 2 after it. *)
Lemma same_handle_twice :
  gens (ref_world (RInt 1 :: nil)) !! 1%positive = Some (RInt 1) /\
  giacrs_gen_add (G := RefGiac) 1 1 (ref_world (RInt 1 :: nil))
    = Done NULL (set_gens (insert 1%positive (RInt 2)) (ref_world (RInt 1 :: nil))) /\
  gens (set_gens (insert 1%positive (RInt 2)) (ref_world (RInt 1 :: nil))) !! 1%positive
    = Some (RInt 2).
Proof. repeat split; reflexivity. Qed.

(** ** C4: a clone is independent of its original *)

Section Clone.

Context {G : Giac}.

Implicit Types (w : world G) (x c f h : loc).

(** The rendering of a handle depends on the object it refers to only. *)
Lemma rendering_lookup x h w w' :
  gens w !! x = gens w' !! h -> rendering x w = rendering h w'.
Proof.
  intros H. unfold rendering, giacrs_gen_to_str. unfold_monad.
  rewrite <- H. destruct (gens w !! x) as [g|]; [|reflexivity].
  destruct (gen_print g); reflexivity.
Qed.

(** An operator call touches its first argument handle only, however it
    ends, and that handle stays live. *)
Lemma operator_frame op c f w :
  match giacrs_gen_operator op c f w with
  | Done _ w' | Unwinds _ w' =>
      (forall h, h <> c -> gens w' !! h = gens w !! h) /\ is_Some (gens w' !! c)
  | Undefined => True
  end.
Proof.
  destruct (gens w !! c) as [x|] eqn:Hc.
  2:{ destruct op; simpl;
      unfold giacrs_gen_add, giacrs_gen_sub, giacrs_gen_mul, giacrs_gen_div;
      unfold_monad; rewrite Hc; exact I. }
  destruct (gens w !! f) as [y|] eqn:Hf.
  2:{ destruct op; simpl;
      unfold giacrs_gen_add, giacrs_gen_sub, giacrs_gen_mul, giacrs_gen_div;
      unfold_monad; rewrite Hc, Hf; exact I. }
  rewrite (operator_run op Hc Hf).
  destruct (gen_operator op x y) as [z|e].
  - simpl. split.
    + intros h Hh. apply gens_insert_ne. congruence.
    + rewrite gens_insert_eq. eauto.
  - unfold after_throw. case_class; split; eauto.
Qed.

Lemma mutate_frame c ops : forall w,
  is_Some (gens w !! c) ->
  match mutate c ops w with
  | Done _ w' | Unwinds _ w' => forall h, h <> c -> gens w' !! h = gens w !! h
  | Undefined => True
  end.
Proof.
  induction ops as [|[op f] ops IH]; intros w Hc; simpl.
  - unfold ret. auto.
  - unfold bind. pose proof (operator_frame op c f w) as Hop.
    destruct (giacrs_gen_operator op c f w) as [r w1|e w1|]; auto.
    + destruct Hop as [Hframe Hlive].
      specialize (IH w1 Hlive).
      destruct (mutate c ops w1) as [[] w2|e w2|]; auto;
        intros h Hh; rewrite IH, Hframe; auto.
    + destruct Hop as [Hframe _]. exact Hframe.
Qed.

End Clone.

(** C4.  For a live handle [x]: [giacrs_gen_clone] returns a handle [c]
    other than [x] with the same rendering; after any sequence of operator
    calls on [c], whatever their second arguments and however they end,
    the rendering of [x] is what it was; and freeing either handle leaves
    the rendering of the other as it was. *)
Theorem clone_is_independent (G : Giac) (x : loc) (ops : list (operator * loc))
    (w : world G) :
  is_Some (gens w !! x) ->
  match giacrs_gen_clone x w with
  | Done c w1 =>
      c <> x /\
      rendering c w1 = rendering x w /\
      match mutate c ops w1 with
      | Done _ w2 | Unwinds _ w2 =>
          rendering x w2 = rendering x w /\
          forall w3, giacrs_free_gen c w2 = Done tt w3 -> rendering x w3 = rendering x w
      | Undefined => True
      end /\
      forall w3, giacrs_free_gen x w1 = Done tt w3 -> rendering c w3 = rendering x w
  | _ => False
  end.
Proof.
  intros [g Hx]. unfold giacrs_gen_clone, new_gen. unfold_monad. rewrite Hx.
  cbv beta iota zeta.
  set (c := fresh (dom (gens w))).
  assert (Hfresh : gens w !! c = None) by (apply not_elem_of_dom, is_fresh).
  assert (Hne : c <> x) by congruence.
  set (w1 := set_gens (insert c g) w).
  assert (Hc1 : gens w1 !! c = Some g) by apply gens_insert_eq.
  assert (Hx1 : gens w1 !! x = gens w !! x) by (apply gens_insert_ne; exact Hne).
  split; [exact Hne|].
  split; [apply rendering_lookup; congruence|].
  split.
  - pose proof (@mutate_frame G c ops w1 (ex_intro _ g Hc1)) as Hm.
    assert (Hfree : forall w2 w3, gens w2 !! x = gens w !! x ->
              giacrs_free_gen c w2 = Done tt w3 -> rendering x w3 = rendering x w).
    { intros w2 w3 H2 Hd. unfold giacrs_free_gen, delete_gen in Hd.
      destruct (gens w2 !! c); [|discriminate].
      injection Hd as <-. apply rendering_lookup. simpl.
      rewrite lookup_delete_ne; auto. }
    destruct (mutate c ops w1) as [[] w2|e w2|]; auto;
      (assert (H2 : gens w2 !! x = gens w !! x) by (rewrite Hm; auto));
      (split; [apply rendering_lookup; exact H2 | intros w3; apply Hfree; exact H2]).
  - intros w3 Hd. unfold giacrs_free_gen, delete_gen in Hd.
    destruct (gens w1 !! x); [|discriminate].
    injection Hd as <-. transitivity (rendering c w1).
    + apply rendering_lookup. simpl. rewrite lookup_delete_ne; auto.
    + apply rendering_lookup. congruence.
Qed.

(** In the reference instance: 5 is cloned, the clone is added to 2,
    multiplied by the original and divided by a zero, and the original
    still prints as "5". *)
Lemma clone_is_independent_witness :
  is_Some (gens (ref_world (RInt 5 :: RInt 2 :: RInt 0 :: nil)) !! 1%positive) /\
  match giacrs_gen_clone (G := RefGiac) 1 (ref_world (RInt 5 :: RInt 2 :: RInt 0 :: nil)) with
  | Done c w1 =>
      c <> 1%positive /\
      rendering c w1 = rendering 1 (ref_world (RInt 5 :: RInt 2 :: RInt 0 :: nil)) /\
      match mutate c ((Add, 2%positive) :: (Mul, 1%positive) :: (Div, 3%positive) :: nil) w1 with
      | Done _ w2 | Unwinds _ w2 =>
          rendering 1 w2 = rendering 1 (ref_world (RInt 5 :: RInt 2 :: RInt 0 :: nil)) /\
          forall w3, giacrs_free_gen c w2 = Done tt w3 ->
                     rendering 1 w3 = rendering 1 (ref_world (RInt 5 :: RInt 2 :: RInt 0 :: nil))
      | Undefined => True
      end /\
      forall w3, giacrs_free_gen 1 w1 = Done tt w3 ->
                 rendering c w3 = rendering 1 (ref_world (RInt 5 :: RInt 2 :: RInt 0 :: nil))
  | _ => False
  end.
Proof.
  assert (H : is_Some (gens (ref_world (RInt 5 :: RInt 2 :: RInt 0 :: nil)) !! 1%positive))
    by (exists (RInt 5); reflexivity).
  split; [exact H|].
  exact (clone_is_independent (G := RefGiac) (x := 1)
           ((Add, 2%positive) :: (Mul, 1%positive) :: (Div, 3%positive) :: nil) H).
Defined.

(** ** C5: the guard of the nth-prime lookup *)




(** ** C9: the sign-coded predicates *)

Lemma to_int8_small (c : Z) : -128 <= c <= 127 -> to_int8 c = c.
Proof.
  intros H. unfold to_int8. rewrite Z.mod_small; lia.
Qed.

(** Outside that range the store keeps the low byte only. *)
Example to_int8_wide : to_int8 256 = 0 /\ to_int8 (-2147483647) = 1.
Proof. split; reflexivity. Qed.




(** ** C10: the remainder alone *)

Section Remainder.

Context {G : Giac}.

Implicit Types (w : world G) (a b q res : loc).

Lemma world_eta w :
  World (gens w) (bools w) (int8s w) (ints w) (giac_state w) = w.
Proof. destruct w. reflexivity. Qed.

(** The local quotient leaves no trace: the heap after [giacrs_gen_irem]
    is the heap before it with the remainder stored. *)
Lemma irem_run a b res w x y :
  gens w !! a = Some x -> gens w !! b = Some y -> is_Some (gens w !! res) ->
  giacrs_gen_irem a b res w =
  match irem x y with
  | Returns (qv, rv) => Done NULL (set_gens (insert res rv) w)
  | Throws e => after_throw e w
  end.
Proof.
  intros Ha Hb Hres. unfold giacrs_gen_irem, with_local_gen.
  set (q := fresh (dom (gens w))).
  assert (Hq : gens w !! q = None) by (apply not_elem_of_dom, is_fresh).
  assert (Hqa : q <> a) by congruence.
  assert (Hqb : q <> b) by congruence.
  assert (Hqr : q <> res) by (destruct Hres; congruence).
  set (w0 := set_gens (insert q (gen_default G)) w).
  rewrite (@iquorem_run G a b q res w0 x y).
  - destruct (irem x y) as [[qv rv]|e].
    + f_equal. unfold set_gens. simpl. f_equal.
      rewrite delete_insert_ne by congruence.
      rewrite !delete_insert_eq. rewrite delete_id by exact Hq. reflexivity.
    + unfold after_throw. case_class; f_equal; unfold set_gens; simpl;
        rewrite delete_insert_eq, delete_id by exact Hq; apply world_eta.
  - simpl. rewrite gens_insert_ne; auto.
  - simpl. rewrite gens_insert_ne; auto.
  - simpl. rewrite gens_insert_eq. eauto.
  - simpl. rewrite gens_insert_ne; auto.
Qed.

End Remainder.

(** C10.  For live handles [a], [b] and [res], and any live quotient slot
    [q] other than these: [giacrs_gen_irem a b res] and
    [giacrs_gen_iquorem a b q res] end the same way, with the same
    error-or-null result or the same exception, and leave the same object
    in [res]; [giacrs_gen_irem] changes no handle but [res], the quotient
    it computed being dropped with its local. *)
Theorem irem_is_remainder_of_iquorem (G : Giac) (a b q res : loc) (w : world G) :
  is_Some (gens w !! a) ->
  is_Some (gens w !! b) ->
  is_Some (gens w !! res) ->
  is_Some (gens w !! q) ->
  q <> a -> q <> b -> q <> res ->
  match giacrs_gen_irem a b res w, giacrs_gen_iquorem a b q res w with
  | Done r1 w1, Done r2 w2 =>
      r1 = r2 /\
      gens w1 !! res = gens w2 !! res /\
      (forall h, h <> res -> gens w1 !! h = gens w !! h) /\
      dom (gens w1) = dom (gens w)
  | Unwinds e1 w1, Unwinds e2 w2 => e1 = e2 /\ w1 = w /\ w2 = w
  | _, _ => False
  end.
Proof.
  intros [x Ha] [y Hb] Hres Hq Hqa Hqb Hqr.
  rewrite (irem_run Ha Hb Hres), (iquorem_run Ha Hb Hq Hres).
  destruct (irem x y) as [[qv rv]|e].
  - simpl. split; [reflexivity|]. split.
    + now rewrite !gens_insert_eq.
    + split.
      * intros h Hh. apply gens_insert_ne. congruence.
      * apply dom_insert_lookup_L. exact Hres.
  - unfold after_throw. case_class; auto.
Qed.

(** In the reference instance, -7 and 3: both calls return NULL and leave
    2 in the remainder slot. *)
Lemma irem_is_remainder_of_iquorem_witness :
  is_Some (gens (ref_world (RInt (-7) :: RInt 3 :: RInt 0 :: RInt 0 :: nil)) !! 1%positive) /\
  is_Some (gens (ref_world (RInt (-7) :: RInt 3 :: RInt 0 :: RInt 0 :: nil)) !! 2%positive) /\
  is_Some (gens (ref_world (RInt (-7) :: RInt 3 :: RInt 0 :: RInt 0 :: nil)) !! 4%positive) /\
  is_Some (gens (ref_world (RInt (-7) :: RInt 3 :: RInt 0 :: RInt 0 :: nil)) !! 3%positive) /\
  3%positive <> 1%positive /\ 3%positive <> 2%positive /\ 3%positive <> 4%positive /\
  match giacrs_gen_irem (G := RefGiac) 1 2 4
          (ref_world (RInt (-7) :: RInt 3 :: RInt 0 :: RInt 0 :: nil)),
        giacrs_gen_iquorem (G := RefGiac) 1 2 3 4
          (ref_world (RInt (-7) :: RInt 3 :: RInt 0 :: RInt 0 :: nil)) with
  | Done r1 w1, Done r2 w2 =>
      r1 = r2 /\
      gens w1 !! 4%positive = gens w2 !! 4%positive /\
      (forall h, h <> 4%positive ->
         gens w1 !! h = gens (ref_world (RInt (-7) :: RInt 3 :: RInt 0 :: RInt 0 :: nil)) !! h) /\
      dom (gens w1) = dom (gens (ref_world (RInt (-7) :: RInt 3 :: RInt 0 :: RInt 0 :: nil)))
  | Unwinds e1 w1, Unwinds e2 w2 =>
      e1 = e2 /\
      w1 = ref_world (RInt (-7) :: RInt 3 :: RInt 0 :: RInt 0 :: nil) /\
      w2 = ref_world (RInt (-7) :: RInt 3 :: RInt 0 :: RInt 0 :: nil)
  | _, _ => False
  end.
Proof.
  assert (L : forall h v, gens (ref_world (RInt (-7) :: RInt 3 :: RInt 0 :: RInt 0 :: nil)) !! h
                          = Some v ->
              is_Some (gens (ref_world (RInt (-7) :: RInt 3 :: RInt 0 :: RInt 0 :: nil)) !! h))
    by (intros h v E; exists v; exact E).
  pose proof (L 1%positive (RInt (-7)) eq_refl) as H1.
  pose proof (L 2%positive (RInt 3) eq_refl) as H2.
  pose proof (L 4%positive (RInt 0) eq_refl) as H4.
  pose proof (L 3%positive (RInt 0) eq_refl) as H3.
  assert (N1 : 3%positive <> 1%positive) by discriminate.
  assert (N2 : 3%positive <> 2%positive) by discriminate.
  assert (N4 : 3%positive <> 4%positive) by discriminate.
  repeat (split; [assumption|]).
  exact (irem_is_remainder_of_iquorem (G := RefGiac) H1 H2 H4 H3 N1 N2 N4).
Defined.

(** ** C6, C7, C8: numeric results, in the reference instance *)

(** *** Integer facts *)

Lemma euclid_quotient (x y : Z) :
  y <> 0 ->
  x = y * ((x - x mod Z.abs y) / y) + x mod Z.abs y /\
  0 <= x mod Z.abs y < Z.abs y.
Proof.
  intros Hy.
  assert (Habs : 0 < Z.abs y) by lia.
  split; [|apply Z.mod_pos_bound; exact Habs].
  pose proof (Z.div_mod x (Z.abs y) ltac:(lia)) as Hdm.
  set (r := x mod Z.abs y) in *. set (k := x / Z.abs y) in *.
  assert (Hk : x - r = Z.sgn y * k * y).
  { destruct (Z.lt_trichotomy y 0) as [Hn|[Hz|Hp]]; [|contradiction|].
    - rewrite (Z.sgn_neg y Hn). rewrite (Z.abs_neq y) in Hdm by lia. lia.
    - rewrite (Z.sgn_pos y Hp). rewrite (Z.abs_eq y) in Hdm by lia. lia. }
  rewrite Hk, Z.div_mul by exact Hy. lia.
Qed.

Lemma bezout_identity (fuel : nat) : forall a b,
  let '(u, v, d) := bezout fuel a b in a * u + b * v = d.
Proof.
  assert (Hbase : forall a b, a * Z.sgn a + b * 0 = Z.abs a)
    by (intros a b; destruct a; simpl; lia).
  induction fuel as [|fuel IH]; intros a b; simpl; [apply Hbase|].
  destruct (Z.eqb_spec b 0) as [->|Hb]; [apply Hbase|].
  specialize (IH b (a mod b)).
  destruct (bezout fuel b (a mod b)) as [[u v] d].
  rewrite <- IH, Z.mod_eq by exact Hb. ring.
Qed.

Lemma gcd_mul_lcm_abs (x y : Z) :
  x <> 0 -> Z.gcd x y * Z.lcm x y = Z.abs (x * y).
Proof.
  intros Hx. unfold Z.lcm.
  pose proof (Z.gcd_nonneg x y) as Hpos.
  assert (Hg : Z.gcd x y <> 0).
  { intros E. apply Z.gcd_eq_0_l in E. contradiction. }
  destruct (Z.gcd_divide_r x y) as [k Hk].
  set (g := Z.gcd x y) in *.
  replace (y / g) with k by (rewrite Hk at 1; now rewrite Z.div_mul).
  rewrite <- (Z.abs_eq g) at 1 by exact Hpos.
  rewrite <- Z.abs_mul. f_equal. rewrite Hk at 1. ring.
Qed.

(** *** Decimal numerals as C strings *)

(** A decimal numeral contains no zero byte, so [strcpy] copies all of it. *)
Lemma c_str_digits (d : Decimal.uint) :
  c_str (NilEmpty.string_of_uint d) = NilEmpty.string_of_uint d.
Proof. induction d; simpl; congruence. Qed.

Lemma c_str_numeral (d : Decimal.uint) :
  c_str (NilZero.string_of_uint d) = NilZero.string_of_uint d.
Proof.
  destruct d; try apply c_str_digits. reflexivity.
Qed.

Lemma N_to_uint_nonnil (n : N) : N.to_uint n <> Decimal.Nil.
Proof.
  destruct n as [|p]; simpl; [discriminate|apply DecimalPos.Unsigned.to_uint_nonnil].
Qed.

Lemma ref_print_natural (n : N) :
  ref_print (RInt (Z.of_N n)) = Returns (NilZero.string_of_uint (N.to_uint n)).
Proof. destruct n; reflexivity. Qed.

(** *** C6 *)

(** C6.  In the reference instance, for live handles [a] and [b] holding
    the integers [x] and [y], [y] nonzero, and two live output slots [q]
    and [res], [q] being neither [res] nor an input: the call returns NULL
    and leaves in [q] and [res] integers [qv] and [rv] with
    [x = y * qv + rv] and [0 <= rv < |y|]. *)
Theorem iquorem_is_euclidean (a b q res : loc) (w : world RefGiac) (x y : Z) :
  gens w !! a = Some (RInt x) ->
  gens w !! b = Some (RInt y) ->
  y <> 0 ->
  is_Some (gens w !! q) ->
  is_Some (gens w !! res) ->
  q <> res -> q <> a -> q <> b ->
  exists (qv rv : Z) (w' : world RefGiac),
    giacrs_gen_iquorem a b q res w = Done NULL w' /\
    gens w' !! q = Some (RInt qv) /\
    gens w' !! res = Some (RInt rv) /\
    x = y * qv + rv /\
    0 <= rv < Z.abs y.
Proof.
  intros Ha Hb Hy Hq Hres Hqr _ _.
  rewrite (iquorem_run (G := RefGiac) Ha Hb Hq Hres).
  simpl. unfold ref_irem. simpl.
  destruct (Z.eqb_spec y 0) as [E|_]; [contradiction|].
  destruct (euclid_quotient x Hy) as [Heq Hrange].
  eexists _, _, _. split; [reflexivity|]. simpl.
  split; [rewrite lookup_insert_ne by congruence; apply lookup_insert_eq|].
  split; [apply lookup_insert_eq|].
  split; [exact Heq | exact Hrange].
Qed.

Lemma iquorem_is_euclidean_witness :
  gens (ref_world (RInt (-7) :: RInt (-3) :: RInt 0 :: RInt 0 :: nil)) !! 1%positive
    = Some (RInt (-7)) /\
  gens (ref_world (RInt (-7) :: RInt (-3) :: RInt 0 :: RInt 0 :: nil)) !! 2%positive
    = Some (RInt (-3)) /\
  -3 <> 0 /\
  is_Some (gens (ref_world (RInt (-7) :: RInt (-3) :: RInt 0 :: RInt 0 :: nil)) !! 3%positive) /\
  is_Some (gens (ref_world (RInt (-7) :: RInt (-3) :: RInt 0 :: RInt 0 :: nil)) !! 4%positive) /\
  3%positive <> 4%positive /\ 3%positive <> 1%positive /\ 3%positive <> 2%positive /\
  exists (qv rv : Z) (w' : world RefGiac),
    giacrs_gen_iquorem 1 2 3 4 (ref_world (RInt (-7) :: RInt (-3) :: RInt 0 :: RInt 0 :: nil))
      = Done NULL w' /\
    gens w' !! 3%positive = Some (RInt qv) /\
    gens w' !! 4%positive = Some (RInt rv) /\
    -7 = -3 * qv + rv /\
    0 <= rv < Z.abs (-3).
Proof.
  assert (H1 : gens (ref_world (RInt (-7) :: RInt (-3) :: RInt 0 :: RInt 0 :: nil)) !! 1%positive
               = Some (RInt (-7))) by reflexivity.
  assert (H2 : gens (ref_world (RInt (-7) :: RInt (-3) :: RInt 0 :: RInt 0 :: nil)) !! 2%positive
               = Some (RInt (-3))) by reflexivity.
  assert (H0 : -3 <> 0) by lia.
  assert (H3 : is_Some (gens (ref_world (RInt (-7) :: RInt (-3) :: RInt 0 :: RInt 0 :: nil))
                          !! 3%positive)) by (exists (RInt 0); reflexivity).
  assert (H4 : is_Some (gens (ref_world (RInt (-7) :: RInt (-3) :: RInt 0 :: RInt 0 :: nil))
                          !! 4%positive)) by (exists (RInt 0); reflexivity).
  assert (N4 : 3%positive <> 4%positive) by discriminate.
  assert (N1 : 3%positive <> 1%positive) by discriminate.
  assert (N2 : 3%positive <> 2%positive) by discriminate.
  repeat (split; [assumption|]).
  exact (iquorem_is_euclidean H1 H2 H0 H3 H4 N4 N1 N2).
Defined.

(** *** C7 *)

(** C7.  In the reference instance, for live handles [a] and [b] holding
    nonzero integers [x] and [y] and live output slots: [giacrs_gen_gcd]
    and [giacrs_gen_lcm], called in the same world, both return NULL and
    leave integers [g] and [l] with [g * l = |x * y|]. *)
Theorem gcd_times_lcm (a b rg rl : loc) (ctx : ctxptr RefGiac) (w : world RefGiac)
    (x y : Z) :
  gens w !! a = Some (RInt x) ->
  gens w !! b = Some (RInt y) ->
  x <> 0 -> y <> 0 ->
  is_Some (gens w !! rg) ->
  is_Some (gens w !! rl) ->
  exists (g l : Z) (wg wl : world RefGiac),
    giacrs_gen_gcd a b rg ctx w = Done NULL wg /\
    giacrs_gen_lcm a b rl w = Done NULL wl /\
    gens wg !! rg = Some (RInt g) /\
    gens wl !! rl = Some (RInt l) /\
    g * l = Z.abs (x * y).
Proof.
  intros Ha Hb Hx _ Hrg Hrl.
  unfold giacrs_gen_gcd, giacrs_gen_lcm.
  rewrite (SAFE_CALL_binary_ctx (G := RefGiac) (@gcd RefGiac) ctx Ha Hb Hrg).
  rewrite (SAFE_CALL_binary (G := RefGiac) (@lcm RefGiac) Ha Hb Hrl).
  simpl.
  exists (Z.gcd x y), (Z.lcm x y). eexists _, _.
  split; [reflexivity|]. split; [reflexivity|]. simpl.
  split; [apply lookup_insert_eq|].
  split; [apply lookup_insert_eq|].
  apply gcd_mul_lcm_abs. exact Hx.
Qed.

Lemma gcd_times_lcm_witness :
  gens (ref_world (RInt (-4) :: RInt 6 :: RInt 0 :: RInt 0 :: nil)) !! 1%positive
    = Some (RInt (-4)) /\
  gens (ref_world (RInt (-4) :: RInt 6 :: RInt 0 :: RInt 0 :: nil)) !! 2%positive
    = Some (RInt 6) /\
  -4 <> 0 /\ 6 <> 0 /\
  is_Some (gens (ref_world (RInt (-4) :: RInt 6 :: RInt 0 :: RInt 0 :: nil)) !! 3%positive) /\
  is_Some (gens (ref_world (RInt (-4) :: RInt 6 :: RInt 0 :: RInt 0 :: nil)) !! 4%positive) /\
  exists (g l : Z) (wg wl : world RefGiac),
    giacrs_gen_gcd (G := RefGiac) 1 2 3 O (ref_world (RInt (-4) :: RInt 6 :: RInt 0 :: RInt 0 :: nil))
      = Done NULL wg /\
    giacrs_gen_lcm 1 2 4 (ref_world (RInt (-4) :: RInt 6 :: RInt 0 :: RInt 0 :: nil))
      = Done NULL wl /\
    gens wg !! 3%positive = Some (RInt g) /\
    gens wl !! 4%positive = Some (RInt l) /\
    g * l = Z.abs (-4 * 6).
Proof.
  assert (H1 : gens (ref_world (RInt (-4) :: RInt 6 :: RInt 0 :: RInt 0 :: nil)) !! 1%positive
               = Some (RInt (-4))) by reflexivity.
  assert (H2 : gens (ref_world (RInt (-4) :: RInt 6 :: RInt 0 :: RInt 0 :: nil)) !! 2%positive
               = Some (RInt 6)) by reflexivity.
  assert (Z1 : -4 <> 0) by lia.
  assert (Z2 : 6 <> 0) by lia.
  assert (H3 : is_Some (gens (ref_world (RInt (-4) :: RInt 6 :: RInt 0 :: RInt 0 :: nil))
                          !! 3%positive)) by (exists (RInt 0); reflexivity).
  assert (H4 : is_Some (gens (ref_world (RInt (-4) :: RInt 6 :: RInt 0 :: RInt 0 :: nil))
                          !! 4%positive)) by (exists (RInt 0); reflexivity).
  repeat (split; [assumption|]).
  exact (gcd_times_lcm O H1 H2 Z1 Z2 H3 H4).
Defined.

(** *** C8 *)

Lemma read_decimal_digits (n : N) : read_decimal (decimal_digits n) = Some n.
Proof.
  unfold read_decimal, decimal_digits.
  rewrite NilZero.usu by apply N_to_uint_nonnil.
  now rewrite DecimalN.Unsigned.of_to.
Qed.

(** The constructor, for any library whose factorial returns. *)
Lemma factorial_run (G : Giac) (i : N) (w : world G) (f : gen G) :
  factorial G i = Returns f ->
  giacrs_gen_factorial i w
  = Done (fresh (dom (gens w))) (set_gens (insert (fresh (dom (gens w))) f) w).
Proof.
  intros H. unfold giacrs_gen_factorial, new_gen. unfold_monad. rewrite H. reflexivity.
Qed.

(** The rendering of a natural number in the reference instance. *)
Lemma to_str_natural (p : loc) (w : world RefGiac) (n : N) :
  gens w !! p = Some (RInt (Z.of_N n)) ->
  giacrs_gen_to_str p w = Done (decimal_digits n) w.
Proof.
  intros H. unfold giacrs_gen_to_str. unfold_monad.
  cbn [gen RefGiac] in *. rewrite H.
  cbn [gen_print RefGiac]. rewrite ref_print_natural.
  unfold string_to_c. rewrite c_str_numeral. reflexivity.
Qed.

(** C8.  In the reference instance, for every [i]:
    [giacrs_gen_factorial i] returns a new handle that already refers to
    the integer [i!], and [giacrs_gen_to_str] on that handle returns the
    decimal digits of [i!], a string that reads back as [i!]. *)
Theorem factorial_to_str (i : N) (w : world RefGiac) :
  exists (p : loc) (w1 : world RefGiac) (s : string),
    giacrs_gen_factorial i w = Done p w1 /\
    gens w !! p = None /\
    gens w1 !! p = Some (RInt (Z.of_nat (fact (N.to_nat i)))) /\
    giacrs_gen_to_str p w1 = Done s w1 /\
    s = decimal_digits (N.of_nat (fact (N.to_nat i))) /\
    read_decimal s = Some (N.of_nat (fact (N.to_nat i))).
Proof.
  set (n := N.of_nat (fact (N.to_nat i))).
  assert (Hn : Z.of_nat (fact (N.to_nat i)) = Z.of_N n) by (symmetry; apply nat_N_Z).
  eexists _, _, (decimal_digits n).
  split; [apply (factorial_run (G := RefGiac)); reflexivity|].
  split; [apply not_elem_of_dom, is_fresh|].
  split; [apply lookup_insert_eq|].
  split.
  - apply to_str_natural. cbn [gens set_gens]. rewrite Hn. apply lookup_insert_eq.
  - split; [reflexivity|apply read_decimal_digits].
Qed.

(** 5! prints as "120". *)
Example factorial_5 :
  giacrs_gen_factorial 5 (ref_world nil)
    = Done 1%positive (set_gens (insert 1%positive (RInt 120)) (ref_world nil)) /\
  giacrs_gen_to_str 1 (set_gens (insert 1%positive (RInt 120)) (ref_world nil))
    = Done "120" (set_gens (insert 1%positive (RInt 120)) (ref_world nil)).
Proof. split; reflexivity. Qed.

(** * Further properties of the wrapper *)

(** ** [string_to_c] *)

(** [string_to_c] keeps the text before the first zero byte: its result
    holds no zero byte, the argument is the result followed by nothing or
    by a zero byte and the rest, and a text without a zero byte is copied
    whole. *)
Theorem string_to_c_prefix (s : string) :
  has_zero_byte (string_to_c s) = false /\
  (exists rest, s = string_to_c s ++ rest /\
                (rest = "" \/ exists r, rest = String Ascii.zero r)) /\
  (has_zero_byte s = false -> string_to_c s = s).
Proof.
  unfold string_to_c. induction s as [|c s (IH1 & (rest & IH2 & IH3) & IH4)]; simpl.
  - split; [reflexivity|]. split; [|reflexivity].
    exists "". split; [reflexivity|now left].
  - destruct (Ascii.eqb_spec c Ascii.zero) as [->|Hc]; simpl.
    + split; [reflexivity|]. split; [|discriminate].
      exists (String Ascii.zero s). split; [reflexivity|]. right. now exists s.
    + apply Ascii.eqb_neq in Hc. rewrite Hc. simpl.
      split; [exact IH1|]. split.
      * exists rest. split; [|exact IH3].
        change (String c s = String c (c_str s ++ rest)). now f_equal.
      * intros H. now rewrite IH4.
Qed.

(** ** Footprints and definedness *)

Section Footprints.

Context {G : Giac}.

Implicit Types (w : world G) (o u : slots) (p q h : loc).

Lemma map_within_refl {A} (S : list loc) (m : gmap loc A) : map_within S m m.
Proof. split; auto. Qed.

Lemma map_within_trans {A} (S : list loc) (m1 m2 m3 : gmap loc A) :
  map_within S m1 m2 -> map_within S m2 m3 -> map_within S m1 m3.
Proof.
  intros [D1 L1] [D2 L2]. split; [congruence|].
  intros h Hh. rewrite L2, L1; auto.
Qed.

Lemma map_within_insert {A} (S : list loc) (m : gmap loc A) p x :
  p ∈ S -> is_Some (m !! p) -> map_within S m (<[p:=x]> m).
Proof.
  intros Hp Hlive. split.
  - now apply dom_insert_lookup_L.
  - intros h Hh. apply lookup_insert_ne. intros ->. contradiction.
Qed.

Lemma map_within_live {A} (S : list loc) (m m' : gmap loc A) h :
  map_within S m m' -> is_Some (m !! h) -> is_Some (m' !! h).
Proof.
  intros [D _] H. apply elem_of_dom. rewrite D. now apply elem_of_dom.
Qed.

Lemma within_refl o w : within o w w.
Proof. repeat split; auto. Qed.

Lemma within_trans o w1 w2 w3 : within o w1 w2 -> within o w2 w3 -> within o w1 w3.
Proof.
  intros (A1 & B1 & C1 & D1) (A2 & B2 & C2 & D2).
  unfold within. eauto 8 using map_within_trans.
Qed.

Lemma within_live o u w w' : within o w w' -> live u w -> live u w'.
Proof.
  intros (A & B & C & D) (LA & LB & LC & LD).
  repeat split; intros h Hh; eauto using map_within_live.
Qed.

Lemma within_set_giac_state o w st : within o w (set_giac_state st w).
Proof. repeat split; auto. Qed.

(** How [behaves] goes through the monad and the primitives. *)

Lemma behaves_ret {A} o u (a : A) : behaves o u (ret (G := G) a).
Proof. intros w. apply within_refl. Qed.

Lemma behaves_throw {A} o u e : behaves o u (throw (G := G) (A := A) e).
Proof. intros w. apply within_refl. Qed.

Lemma behaves_giac_call {A} o u (r : outcome A) : behaves o u (giac_call (G := G) r).
Proof. intros w. unfold giac_call. destruct r; apply within_refl. Qed.

Lemma behaves_giac_ctx_call {A} o u (f : lib_state G -> outcome A * lib_state G) :
  behaves o u (giac_ctx_call f).
Proof.
  intros w. unfold giac_ctx_call.
  destruct (f (giac_state w)) as [[a|e] st]; apply within_set_giac_state.
Qed.

Lemma behaves_giac_get {A} o u (f : lib_state G -> A) : behaves o u (giac_get f).
Proof. intros w. apply within_refl. Qed.

Lemma behaves_deref o u p : p ∈ gen_slots u -> behaves o u (deref (G := G) p).
Proof.
  intros Hp w. unfold deref. destruct (gens w !! p) eqn:E.
  - apply within_refl.
  - intros (L & _). destruct (L p Hp) as [x Hx]. congruence.
Qed.

Lemma behaves_assign o u p g :
  p ∈ gen_slots o -> p ∈ gen_slots u -> behaves o u (assign (G := G) p g).
Proof.
  intros Ho Hu w. unfold assign. destruct (gens w !! p) eqn:E.
  - repeat split; auto. now apply dom_insert_lookup_L.
    intros h Hh. apply lookup_insert_ne. intros ->. contradiction.
  - intros (L & _). destruct (L p Hu) as [x Hx]. congruence.
Qed.

Lemma behaves_assign_bool o u p b :
  p ∈ bool_slots o -> p ∈ bool_slots u -> behaves o u (assign_bool (G := G) p b).
Proof.
  intros Ho Hu w. unfold assign_bool. destruct (bools w !! p) eqn:E.
  - repeat split; auto. now apply dom_insert_lookup_L.
    intros h Hh. apply lookup_insert_ne. intros ->. contradiction.
  - intros (_ & L & _). destruct (L p Hu) as [x Hx]. congruence.
Qed.

Lemma behaves_assign_int8 o u p v :
  p ∈ int8_slots o -> p ∈ int8_slots u -> behaves o u (assign_int8 (G := G) p v).
Proof.
  intros Ho Hu w. unfold assign_int8. destruct (int8s w !! p) eqn:E.
  - repeat split; auto. now apply dom_insert_lookup_L.
    intros h Hh. apply lookup_insert_ne. intros ->. contradiction.
  - intros (_ & _ & L & _). destruct (L p Hu) as [x Hx]. congruence.
Qed.

Lemma behaves_assign_int o u p v :
  p ∈ int_slots o -> p ∈ int_slots u -> behaves o u (assign_int (G := G) p v).
Proof.
  intros Ho Hu w. unfold assign_int. destruct (ints w !! p) eqn:E.
  - repeat split; auto. now apply dom_insert_lookup_L.
    intros h Hh. apply lookup_insert_ne. intros ->. contradiction.
  - intros (_ & _ & _ & L). destruct (L p Hu) as [x Hx]. congruence.
Qed.

Lemma behaves_bind {A B} o u (m : M G A) (k : A -> M G B) :
  behaves o u m -> (forall a, behaves o u (k a)) -> behaves o u (bind m k).
Proof.
  intros Hm Hk w. unfold bind. specialize (Hm w).
  destruct (m w) as [a w1|e w1|]; auto.
  specialize (Hk a w1).
  destruct (k a w1) as [b w2|e w2|]; eauto using within_trans, within_live.
Qed.

Lemma behaves_if {A} o u (b : bool) (m1 m2 : M G A) :
  behaves o u m1 -> behaves o u m2 -> behaves o u (if b then m1 else m2).
Proof. destruct b; auto. Qed.

Lemma behaves_try_catch o u (body : M G result) :
  behaves o u body -> behaves o u (try_catch_runtime_error body return_what).
Proof.
  intros Hb w. unfold try_catch_runtime_error. specialize (Hb w).
  destruct (body w) as [r w1|e w1|]; auto.
  destruct (derives_from_runtime_error (exn_class e)); exact Hb.
Qed.

(** The local object is gone when the call is left, and no pointer of the
    caller can refer to it. *)
Lemma behaves_with_local_gen {A} o u (body : loc -> M G A) :
  (forall q, behaves (with_gen q o) (with_gen q u) (body q)) ->
  behaves o u (with_local_gen body).
Proof.
  intros Hb w. unfold with_local_gen.
  set (q := fresh (dom (gens w))).
  assert (Hq : gens w !! q = None) by (apply not_elem_of_dom, is_fresh).
  set (w0 := set_gens (insert q (gen_default G)) w).
  specialize (Hb q w0).
  assert (Hout : forall w', within (with_gen q o) w0 w' ->
                            within o w (set_gens (delete q) w')).
  { intros w' ([D L] & HB & H8 & HI). split; [|auto]. split.
    - simpl. rewrite dom_delete_L, D. simpl. rewrite dom_insert_L.
      apply not_elem_of_dom in Hq. apply set_eq. intros x.
      rewrite elem_of_difference, elem_of_union, elem_of_singleton.
      split.
      + intros [[->|Hx] Hne]; [contradiction|exact Hx].
      + intros Hx. split; [now right|]. intros ->. contradiction.
    - intros h Hh. simpl. destruct (decide (h = q)) as [->|Hne].
      + now rewrite lookup_delete_eq.
      + rewrite lookup_delete_ne by congruence.
        rewrite L by (simpl; rewrite not_elem_of_cons; auto).
        simpl. apply lookup_insert_ne. congruence. }
  destruct (body q w0) as [a w'|e w'|]; auto.
  intros (LG & LB & L8 & LI). apply Hb. repeat split; auto.
  intros h Hh. simpl in Hh. simpl.
  apply lookup_insert_is_Some'.
  apply elem_of_cons in Hh as [->|Hh]; auto.
Qed.

End Footprints.

(** One step of a footprint proof, by the shape of the computation. *)
Ltac behaves_step :=
  first
    [ apply behaves_bind; [|intros ?]
    | apply behaves_try_catch
    | apply behaves_if
    | apply behaves_ret
    | apply behaves_throw
    | apply behaves_giac_call
    | apply behaves_giac_ctx_call
    | apply behaves_giac_get
    | apply behaves_deref; simpl; solve [repeat constructor]
    | apply behaves_assign; simpl; solve [repeat constructor]
    | apply behaves_assign_bool; simpl; solve [repeat constructor]
    | apply behaves_assign_int8; simpl; solve [repeat constructor]
    | apply behaves_assign_int; simpl; solve [repeat constructor] ].

Ltac unfold_entry :=
  unfold giacrs_gen_from_str, giacrs_gen_is_zero, giacrs_gen_to_int, giacrs_gen_gcd,
    giacrs_gen_lcm, giacrs_gen_ifactor, giacrs_gen_ifactors, giacrs_gen_maple_ifactors,
    giacrs_gen_divisors, giacrs_gen_iquo, giacrs_gen_iquorem, giacrs_gen_irem,
    giacrs_gen_even, giacrs_gen_odd, giacrs_gen_is_pseudoprime, giacrs_gen_nextprime,
    giacrs_gen_prevprime, giacrs_gen_nthprime, giacrs_gen_iegcd, giacrs_gen_iabcuv,
    giacrs_gen_ichinrem, giacrs_gen_pa2b2, giacrs_gen_euler, giacrs_gen_legendre,
    giacrs_gen_jacobi, giacrs_gen_comb, giacrs_gen_perm, giacrs_gen_rand,
    giacrs_gen_float2rational, giacrs_gen_add, giacrs_gen_sub, giacrs_gen_mul,
    giacrs_gen_div, giacrs_gen_factor, giacrs_gen_simplify, giacrs_gen_det,
    SAFE_CALL, SAFE_VOID_CALL, unary, unary_ctx, binary, binary_ctx.

Lemma call_behaves (G : Giac) (ep : entry G) : behaves (outputs ep) (handles ep) (call ep).
Proof.
  destruct ep; simpl call; unfold_entry;
    try (apply behaves_with_local_gen; intros ?; unfold giacrs_gen_iquorem, SAFE_CALL,
           SAFE_VOID_CALL);
    repeat behaves_step.
Qed.

(** X2.  However a call of an entry point that returns [result] ends, the
    same handles and cells are live after it as before it, and every
    handle and every cell that is not one of its output slots holds what
    it held. *)
Theorem entry_footprint (G : Giac) (ep : entry G) (w : world G) :
  match call ep w with
  | Done _ w' | Unwinds _ w' => within (outputs ep) w w'
  | Undefined => True
  end.
Proof.
  pose proof (call_behaves ep w) as H.
  destruct (call ep w); auto.
Qed.

(** X3.  For the entry points whose parameters are value handles and
    output cells only: when each of them refers to a live object of its
    type, the call is defined; it returns, or it is left by an
    exception. *)
Theorem live_handles_suffice (G : Giac) (ep : entry G) (w : world G) :
  takes_values_only ep = true ->
  live (handles ep) w -> call ep w <> Undefined.
Proof.
  intros _ Hlive E. pose proof (call_behaves ep w) as H.
  rewrite E in H. exact (H Hlive).
Qed.

Lemma live_handles_suffice_witness :
  takes_values_only (call_iquorem RefGiac 1 2 3 4) = true /\
  live (handles (call_iquorem RefGiac 1 2 3 4))
       (ref_world (RInt (-7) :: RInt 3 :: RInt 0 :: RInt 0 :: nil)) /\
  call (call_iquorem RefGiac 1 2 3 4)
       (ref_world (RInt (-7) :: RInt 3 :: RInt 0 :: RInt 0 :: nil)) <> Undefined.
Proof.
  assert (Hv : takes_values_only (call_iquorem RefGiac 1 2 3 4) = true) by reflexivity.
  assert (H : live (handles (call_iquorem RefGiac 1 2 3 4))
                   (ref_world (RInt (-7) :: RInt 3 :: RInt 0 :: RInt 0 :: nil))).
  { repeat split; simpl; intros h Hh;
      repeat (apply elem_of_cons in Hh as [->|Hh]; [eexists; reflexivity|]);
      apply elem_of_nil in Hh; contradiction. }
  split; [exact Hv|]. split; [exact H|exact (live_handles_suffice Hv H)].
Defined.

(** ** Errors that leave the outputs as they were *)

Section FailsClean.

Context {G : Giac}.

Implicit Types (w : world G) (p q : loc).

Lemma same_stores_refl w : same_stores w w.
Proof. repeat split. Qed.

Lemma same_stores_trans w1 w2 w3 :
  same_stores w1 w2 -> same_stores w2 w3 -> same_stores w1 w3.
Proof. intros (A & B & C & D) (A' & B' & C' & D'). repeat split; congruence. Qed.

Lemma stores_nothing_ret {A} (a : A) : stores_nothing (ret (G := G) a).
Proof. intros w. apply same_stores_refl. Qed.

Lemma stores_nothing_deref p : stores_nothing (deref (G := G) p).
Proof. intros w. unfold deref. destruct (gens w !! p); auto using same_stores_refl. Qed.

Lemma stores_nothing_giac_call {A} (r : outcome A) : stores_nothing (giac_call (G := G) r).
Proof. intros w. unfold giac_call. destruct r; apply same_stores_refl. Qed.

Lemma stores_nothing_giac_ctx_call {A} (f : lib_state G -> outcome A * lib_state G) :
  stores_nothing (giac_ctx_call f).
Proof.
  intros w. unfold giac_ctx_call.
  destruct (f (giac_state w)) as [[a|e] st]; repeat split.
Qed.

Lemma stores_nothing_bind {A B} (m : M G A) (k : A -> M G B) :
  stores_nothing m -> (forall a, stores_nothing (k a)) -> stores_nothing (bind m k).
Proof.
  intros Hm Hk w. unfold bind. specialize (Hm w).
  destruct (m w) as [a w1|e w1|]; auto.
  specialize (Hk a w1).
  destruct (k a w1); eauto using same_stores_trans.
Qed.

Lemma never_unwinds_ret {A} (a : A) : never_unwinds (ret (G := G) a).
Proof. intros w. exact I. Qed.

Lemma never_unwinds_assign p g : never_unwinds (assign (G := G) p g).
Proof. intros w. unfold assign. destruct (gens w !! p); exact I. Qed.

Lemma never_unwinds_assign_bool p b : never_unwinds (assign_bool (G := G) p b).
Proof. intros w. unfold assign_bool. destruct (bools w !! p); exact I. Qed.

Lemma never_unwinds_assign_int8 p v : never_unwinds (assign_int8 (G := G) p v).
Proof. intros w. unfold assign_int8. destruct (int8s w !! p); exact I. Qed.

Lemma never_unwinds_assign_int p v : never_unwinds (assign_int (G := G) p v).
Proof. intros w. unfold assign_int. destruct (ints w !! p); exact I. Qed.

Lemma never_unwinds_bind {A B} (m : M G A) (k : A -> M G B) :
  never_unwinds m -> (forall a, never_unwinds (k a)) -> never_unwinds (bind m k).
Proof.
  intros Hm Hk w. unfold bind. specialize (Hm w).
  destruct (m w) as [a w1|e w1|]; auto. apply Hk.
Qed.

Lemma stores_nothing_clean {A} (m : M G A) : stores_nothing m -> unwinds_clean m.
Proof. intros H w. specialize (H w). destruct (m w); auto. Qed.

(** A computation that stores nothing, followed by one that unwinds
    clean, unwinds clean; so does one that unwinds clean followed by
    stores that no exception leaves. *)
Lemma unwinds_clean_after {A B} (m : M G A) (k : A -> M G B) :
  stores_nothing m -> (forall a, unwinds_clean (k a)) -> unwinds_clean (bind m k).
Proof.
  intros Hm Hk w. unfold bind. specialize (Hm w).
  destruct (m w) as [a w1|e w1|]; auto.
  specialize (Hk a w1).
  destruct (k a w1); eauto using same_stores_trans.
Qed.

Lemma unwinds_clean_then_stores {A B} (m : M G A) (k : A -> M G B) :
  unwinds_clean m -> (forall a, never_unwinds (k a)) -> unwinds_clean (bind m k).
Proof.
  intros Hm Hk w. unfold bind. specialize (Hm w).
  destruct (m w) as [a w1|e w1|]; auto.
  specialize (Hk a w1).
  destruct (k a w1); auto. contradiction.
Qed.

Lemma fails_clean_SAFE_VOID_CALL (block : M G unit) :
  unwinds_clean block -> fails_clean (SAFE_VOID_CALL block).
Proof.
  intros Hb w. unfold SAFE_VOID_CALL, try_catch_runtime_error, bind, ret, return_what.
  specialize (Hb w).
  destruct (block w) as [[] w1|e w1|]; auto.
  destruct (derives_from_runtime_error (exn_class e)); exact Hb.
Qed.

Lemma fails_clean_after (m : M G (gen G)) (k : gen G -> M G result) :
  stores_nothing m -> (forall a, fails_clean (k a)) -> fails_clean (bind m k).
Proof.
  intros Hm Hk w. unfold bind. specialize (Hm w).
  destruct (m w) as [a w1|e w1|]; auto.
  specialize (Hk a w1).
  destruct (k a w1) as [[msg|] w2|e w2|]; eauto using same_stores_trans.
Qed.

Lemma fails_clean_with_local_gen (body : loc -> M G result) :
  (forall q, fails_clean (body q)) -> fails_clean (with_local_gen body).
Proof.
  intros Hb w. unfold with_local_gen.
  set (q := fresh (dom (gens w))).
  assert (Hq : gens w !! q = None) by (apply not_elem_of_dom, is_fresh).
  specialize (Hb q (set_gens (insert q (gen_default G)) w)).
  assert (Hout : forall w', same_stores (set_gens (insert q (gen_default G)) w) w' ->
                            same_stores w (set_gens (delete q) w')).
  { intros w' (A & B & C & D). repeat split; auto.
    simpl. rewrite A. simpl. now apply delete_insert_id. }
  destruct (body q _) as [[msg|] w'|e w'|]; auto.
Qed.

End FailsClean.

(** Such a proof follows the shape of the computation. *)
Ltac quiet_tac :=
  repeat first
    [ apply never_unwinds_bind; [|intros ?]
    | apply never_unwinds_assign | apply never_unwinds_assign_bool
    | apply never_unwinds_assign_int8 | apply never_unwinds_assign_int
    | apply never_unwinds_ret ].

Ltac pure_tac :=
  repeat first
    [ apply stores_nothing_bind; [|intros ?]
    | apply stores_nothing_deref
    | apply stores_nothing_giac_call
    | apply stores_nothing_giac_ctx_call
    | apply stores_nothing_ret ].

Ltac clean_tac :=
  lazymatch goal with
  | |- fails_clean (SAFE_VOID_CALL _) => apply fails_clean_SAFE_VOID_CALL; clean_tac
  | |- fails_clean (try_catch_runtime_error (bind ?block _) return_what) =>
      change (fails_clean (SAFE_VOID_CALL block));
      apply fails_clean_SAFE_VOID_CALL; clean_tac
  | |- fails_clean (bind (deref _) _) =>
      apply fails_clean_after; [apply stores_nothing_deref | intros ?; clean_tac]
  | |- fails_clean (with_local_gen _) =>
      apply fails_clean_with_local_gen; intros ?;
      unfold giacrs_gen_iquorem, SAFE_CALL, SAFE_VOID_CALL; clean_tac
  | |- unwinds_clean (bind _ _) =>
      first [ apply unwinds_clean_then_stores; [clean_tac | intros ?; solve [quiet_tac]]
            | apply unwinds_clean_after; [solve [pure_tac] | intros ?; clean_tac] ]
  | |- unwinds_clean _ => apply stores_nothing_clean; solve [pure_tac]
  end.

Lemma call_fails_clean (G : Giac) (ep : entry G) :
  stores_last ep = true -> fails_clean (call ep).
Proof.
  destruct ep; simpl; try discriminate; intros _; unfold_entry; clean_tac.
Qed.

(** X4.  For the entry points in which an object of the caller is
    assigned only once the last library call has returned (all but
    [giacrs_gen_from_str], [giacrs_gen_nthprime], [giacrs_gen_iabcuv],
    [giacrs_gen_pa2b2], [giacrs_gen_iquorem] and [giacrs_gen_iegcd]): when
    the call returns an error string, or is left by an exception, every
    handle and every cell holds what it held before the call. *)
Theorem errors_leave_outputs (G : Giac) (ep : entry G) (w : world G) :
  stores_last ep = true ->
  match call ep w with
  | Done (Some _) w' | Unwinds _ w' => same_stores w w'
  | _ => True
  end.
Proof.
  intros H. exact (call_fails_clean H w).
Qed.

(** In the reference instance, 7 divided by 0: the error comes back and
    the dividend is still 7. *)
Lemma errors_leave_outputs_witness :
  stores_last (call_div RefGiac 1 2) = true /\
  call (call_div RefGiac 1 2) (ref_world (RInt 7 :: RInt 0 :: nil))
    = Done (Some "Division by 0") (ref_world (RInt 7 :: RInt 0 :: nil)) /\
  match call (call_div RefGiac 1 2) (ref_world (RInt 7 :: RInt 0 :: nil)) with
  | Done (Some _) w' | Unwinds _ w' =>
      same_stores (ref_world (RInt 7 :: RInt 0 :: nil)) w'
  | _ => True
  end.
Proof.
  assert (H : stores_last (call_div RefGiac 1 2) = true) by reflexivity.
  split; [exact H|]. split; [reflexivity|].
  exact (errors_leave_outputs (ref_world (RInt 7 :: RInt 0 :: nil)) H).
Defined.

(** The others can have stored when they fail: here the slot of
    [giacrs_gen_nthprime] holds the undefined value although the call
    returned an error. *)
Example nthprime_stores_first :
  giacrs_gen_nthprime (G := RefGiac) 1 2 O (ref_world (RInt 300 :: RInt 0 :: nil))
    = Done (Some nthprime_message)
        (set_gens (insert 2%positive RUndef) (ref_world (RInt 300 :: RInt 0 :: nil))) /\
  gens (ref_world (RInt 300 :: RInt 0 :: nil)) !! 2%positive = Some (RInt 0).
Proof. split; reflexivity. Qed.

(** ** Handles: construction and destruction *)

Section Lifecycle.

Context {G : Giac}.

Implicit Types (w : world G) (p e h : loc).

Lemma new_gen_free (g : gen G) w :
  gens w !! fresh (dom (gens w)) = None /\
  giacrs_free_gen (fresh (dom (gens w))) (set_gens (insert (fresh (dom (gens w))) g) w)
  = Done tt w.
Proof.
  set (p := fresh (dom (gens w))).
  assert (Hp : gens w !! p = None) by (apply not_elem_of_dom, is_fresh).
  split; [exact Hp|].
  unfold giacrs_free_gen, delete_gen. simpl. rewrite gens_insert_eq.
  unfold set_gens. simpl. rewrite delete_insert_id by exact Hp.
  f_equal. apply world_eta.
Qed.

End Lifecycle.

(** X5.  Each function that returns a new handle ([giacrs_gen_allocate],
    [giacrs_gen_from_int], [giacrs_gen_from_float], [giacrs_gen_from_double],
    [giacrs_gen_factorial], [giacrs_gen_clone]) returns an address that was
    not live, which then holds the constructed value while every other
    handle, every cell and the library state are as before; freeing that
    handle gives back the world the call started in.  When the library
    throws instead, nothing has been allocated.  The call is undefined only
    for the clone of a handle that is not live. *)
Theorem constructor_lifecycle (G : Giac) (c : constructor G) (w : world G) :
  match construct c w with
  | Done p w1 =>
      gens w !! p = None /\
      (exists g, constructed c w = Some g /\ w1 = set_gens (insert p g) w) /\
      giacrs_free_gen p w1 = Done tt w
  | Unwinds e w1 => w1 = w
  | Undefined => exists e, c = @Clone G e /\ gens w !! e = None
  end.
Proof.
  destruct c as [|i|f|d|i|e]; simpl;
    unfold giacrs_gen_allocate, giacrs_gen_from_int, giacrs_gen_from_float,
      giacrs_gen_from_double, giacrs_gen_factorial, giacrs_gen_clone, new_gen;
    unfold_monad.
  1-4: split; [apply (new_gen_free (gen_default G))|];
       split; [eexists; split; reflexivity|apply new_gen_free].
  - destruct (factorial G i) as [f|ex]; [|reflexivity].
    split; [apply (new_gen_free f)|].
    split; [eexists; split; reflexivity|apply new_gen_free].
  - destruct (gens w !! e) as [g|] eqn:E.
    + split; [apply (new_gen_free g)|].
      split; [eexists; split; reflexivity|apply new_gen_free].
    + now exists e.
Qed.

(** X6.  Freeing a live handle removes that object and nothing else: the
    handle is no longer live, every other handle, every cell and the
    library state are as before.  Any further use of the handle, a second
    free included, is undefined, as is freeing a handle that is not
    live. *)
Theorem free_removes_one_handle (G : Giac) (e : loc) (w : world G) :
  match gens w !! e with
  | Some _ =>
      giacrs_free_gen e w = Done tt (set_gens (delete e) w) /\
      gens (set_gens (delete e) w) !! e = None /\
      (forall h, h <> e -> gens (set_gens (delete e) w) !! h = gens w !! h) /\
      giacrs_free_gen e (set_gens (delete e) w) = Undefined /\
      giacrs_gen_to_str e (set_gens (delete e) w) = Undefined /\
      giacrs_gen_type e (set_gens (delete e) w) = Undefined /\
      giacrs_gen_clone e (set_gens (delete e) w) = Undefined
  | None => giacrs_free_gen e w = Undefined
  end.
Proof.
  unfold giacrs_free_gen, delete_gen, giacrs_gen_to_str, giacrs_gen_type, giacrs_gen_clone.
  unfold_monad.
  destruct (gens w !! e) as [g|] eqn:E; [|reflexivity].
  simpl. rewrite !lookup_delete_eq.
  repeat split; auto.
  intros h Hh. apply lookup_delete_ne. congruence.
Qed.

(** ** The narrowing store of the sign-coded predicates *)

Lemma to_int8_range (c : Z) : -128 <= to_int8 c <= 127.
Proof.
  unfold to_int8. pose proof (Z.mod_pos_bound (c + 128) 256 ltac:(lia)). lia.
Qed.

Lemma to_int8_congruent (c : Z) : (to_int8 c - c) mod 256 = 0.
Proof.
  unfold to_int8. pose proof (Z.div_mod (c + 128) 256 ltac:(lia)) as H.
  replace ((c + 128) mod 256 - 128 - c) with (- ((c + 128) / 256) * 256) by lia.
  apply Z.mod_mul. lia.
Qed.

(** X7.  For [giacrs_gen_is_pseudoprime], [giacrs_gen_legendre] and
    [giacrs_gen_jacobi] with a live [int8_t] slot: when the library answers
    the code [c], the call returns NULL and the slot holds the [int8_t]
    that is congruent to [c] modulo 256, which is [c] itself exactly when
    [c] fits; when the library raises, the slot is not touched; when an
    argument handle is not live, the call is undefined. *)
Theorem predicate_code_is_narrowed (G : Giac) (p : predicate) (res : loc) (w : world G) :
  is_Some (int8s w !! res) ->
  match library_code p w with
  | Some (Returns c) =>
      giacrs_gen_predicate p res w = Done NULL (set_int8s (insert res (to_int8 c)) w) /\
      -128 <= to_int8 c <= 127 /\
      (to_int8 c - c) mod 256 = 0 /\
      (to_int8 c = c <-> -128 <= c <= 127)
  | Some (Throws e) => giacrs_gen_predicate p res w = after_throw e w
  | None => giacrs_gen_predicate p res w = Undefined
  end.
Proof.
  intros [r Hres].
  assert (Hc : forall c, -128 <= to_int8 c <= 127 /\ (to_int8 c - c) mod 256 = 0 /\
                         (to_int8 c = c <-> -128 <= c <= 127)).
  { intros c. pose proof (to_int8_range c). split; [assumption|].
    split; [apply to_int8_congruent|]. split; [lia|apply to_int8_small]. }
  destruct p as [a|a b|a b]; simpl;
    unfold giacrs_gen_is_pseudoprime, giacrs_gen_legendre, giacrs_gen_jacobi;
    unfold_monad;
    destruct (gens w !! a) as [x|]; simpl; try reflexivity;
    try (destruct (gens w !! b) as [y|]; simpl; try reflexivity).
  - destruct (is_probab_prime_p x) as [c|e]; [|case_class; reflexivity].
    rewrite Hres. split; [reflexivity|apply Hc].
  - destruct (legendre x y) as [c|e]; [|case_class; reflexivity].
    rewrite Hres. split; [reflexivity|apply Hc].
  - destruct (jacobi x y) as [c|e]; [|case_class; reflexivity].
    rewrite Hres. split; [reflexivity|apply Hc].
Qed.

Lemma predicate_code_is_narrowed_witness :
  is_Some (int8s (ref_world (RInt 2 :: RInt 7 :: nil)) !! 1%positive) /\
  match library_code (G := RefGiac) (Legendre 1 2) (ref_world (RInt 2 :: RInt 7 :: nil)) with
  | Some (Returns c) =>
      giacrs_gen_predicate (G := RefGiac) (Legendre 1 2) 1 (ref_world (RInt 2 :: RInt 7 :: nil))
        = Done NULL (set_int8s (insert 1%positive (to_int8 c))
                       (ref_world (RInt 2 :: RInt 7 :: nil))) /\
      -128 <= to_int8 c <= 127 /\
      (to_int8 c - c) mod 256 = 0 /\
      (to_int8 c = c <-> -128 <= c <= 127)
  | Some (Throws e) =>
      giacrs_gen_predicate (G := RefGiac) (Legendre 1 2) 1 (ref_world (RInt 2 :: RInt 7 :: nil))
        = after_throw e (ref_world (RInt 2 :: RInt 7 :: nil))
  | None =>
      giacrs_gen_predicate (G := RefGiac) (Legendre 1 2) 1 (ref_world (RInt 2 :: RInt 7 :: nil))
        = Undefined
  end.
Proof.
  assert (H : is_Some (int8s (ref_world (RInt 2 :: RInt 7 :: nil)) !! 1%positive))
    by (exists 0; reflexivity).
  split; [exact H|].
  exact (predicate_code_is_narrowed (G := RefGiac) (Legendre 1 2) H).
Defined.

(** ** Several output slots *)

Section SeveralOutputs.

Context {G : Giac}.

Implicit Types (w : world G) (a b c u v d p h : loc).

(** The block [giacrs_gen_iabcuv] and [giacrs_gen_pa2b2] share: the two
    elements of a vector are fetched and stored one after the other. *)
Lemma store_pair_run (vec : gen G) u v w :
  is_Some (gens w !! u) -> is_Some (gens w !! v) -> u <> v ->
  (let* g0 := giac_call (gen_at vec 0) in
   assign u g0 ;;
   let* g1 := giac_call (gen_at vec 1) in
   assign v g1) w =
  match gen_at vec 0 with
  | Returns g0 =>
      match gen_at vec 1 with
      | Returns g1 => Done tt (set_gens (insert v g1) (set_gens (insert u g0) w))
      | Throws e => Unwinds e (set_gens (insert u g0) w)
      end
  | Throws e => Unwinds e w
  end.
Proof.
  intros [old0 Hu] [old Hv] Hne. unfold_monad.
  destruct (gen_at vec 0) as [g0|e]; [|reflexivity].
  rewrite Hu. destruct (gen_at vec 1) as [g1|e]; [|reflexivity].
  simpl. rewrite gens_insert_ne by exact Hne. rewrite Hv. reflexivity.
Qed.

End SeveralOutputs.

(** X8.  [giacrs_gen_iegcd] with live arguments and three live, pairwise
    distinct output objects other than the arguments: however the
    library's call is left, the three objects hold what the library left in
    them, in the order u, v, d, and no other handle has changed; the call
    returns NULL when the library returned, and ends as the handler decides
    when it raised, the objects keeping what the library had assigned. *)
Theorem iegcd_fills_three_slots (G : Giac) (a b u v d : loc) (w : world G)
    (x y u0 v0 d0 : gen G) :
  gens w !! a = Some x ->
  gens w !! b = Some y ->
  gens w !! u = Some u0 -> gens w !! v = Some v0 -> gens w !! d = Some d0 ->
  u <> v -> u <> d -> v <> d ->
  u <> a -> u <> b -> v <> a -> v <> b -> d <> a -> d <> b ->
  match egcd x y u0 v0 d0 with
  | ((uu, vv, dd), ending) =>
      exists w',
        w' = set_gens (insert d dd) (set_gens (insert v vv) (set_gens (insert u uu) w)) /\
        giacrs_gen_iegcd a b u v d w =
          match ending with
          | Returns _ => Done NULL w'
          | Throws e => after_throw e w'
          end /\
        gens w' !! u = Some uu /\
        gens w' !! v = Some vv /\
        gens w' !! d = Some dd /\
        (forall h, h <> u -> h <> v -> h <> d -> gens w' !! h = gens w !! h)
  end.
Proof.
  intros Ha Hb Hu Hv Hd Huv Hud Hvd _ _ _ _ _ _.
  destruct (egcd x y u0 v0 d0) as [[[uu vv] dd] ending] eqn:E.
  eexists. split; [reflexivity|]. split.
  - unfold giacrs_gen_iegcd. unfold_monad.
    rewrite Ha, Hb, Hu, Hv, Hd, E. simpl. rewrite Hu. simpl.
    rewrite gens_insert_ne by exact Huv. rewrite Hv. simpl.
    rewrite !gens_insert_ne by congruence. rewrite Hd. simpl.
    destruct ending as [[]|e]; [reflexivity|].
    case_class; reflexivity.
  - simpl. split; [|split; [|split]].
    + rewrite !gens_insert_ne by congruence. apply gens_insert_eq.
    + rewrite gens_insert_ne by congruence. apply gens_insert_eq.
    + apply gens_insert_eq.
    + intros h H1 H2 H3. rewrite !gens_insert_ne by congruence. reflexivity.
Qed.

(** In the reference instance, 6 and 4: the slots receive 1, -1 and 2,
    and 6 * 1 + 4 * (-1) = 2. *)
Lemma iegcd_fills_three_slots_witness :
  gens (ref_world (RInt 6 :: RInt 4 :: RInt 0 :: RInt 0 :: RInt 0 :: nil)) !! 1%positive
    = Some (RInt 6) /\
  gens (ref_world (RInt 6 :: RInt 4 :: RInt 0 :: RInt 0 :: RInt 0 :: nil)) !! 2%positive
    = Some (RInt 4) /\
  gens (ref_world (RInt 6 :: RInt 4 :: RInt 0 :: RInt 0 :: RInt 0 :: nil)) !! 3%positive
    = Some (RInt 0) /\
  gens (ref_world (RInt 6 :: RInt 4 :: RInt 0 :: RInt 0 :: RInt 0 :: nil)) !! 4%positive
    = Some (RInt 0) /\
  gens (ref_world (RInt 6 :: RInt 4 :: RInt 0 :: RInt 0 :: RInt 0 :: nil)) !! 5%positive
    = Some (RInt 0) /\
  exists w',
    w' = set_gens (insert 5%positive (RInt 2))
           (set_gens (insert 4%positive (RInt (-1)))
              (set_gens (insert 3%positive (RInt 1))
                 (ref_world (RInt 6 :: RInt 4 :: RInt 0 :: RInt 0 :: RInt 0 :: nil)))) /\
    giacrs_gen_iegcd (G := RefGiac) 1 2 3 4 5
        (ref_world (RInt 6 :: RInt 4 :: RInt 0 :: RInt 0 :: RInt 0 :: nil))
      = Done NULL w' /\
    gens w' !! 3%positive = Some (RInt 1) /\
    gens w' !! 4%positive = Some (RInt (-1)) /\
    gens w' !! 5%positive = Some (RInt 2) /\
    (forall h, h <> 3%positive -> h <> 4%positive -> h <> 5%positive ->
       gens w' !! h
       = gens (ref_world (RInt 6 :: RInt 4 :: RInt 0 :: RInt 0 :: RInt 0 :: nil)) !! h).
Proof.
  assert (H1 : gens (ref_world (RInt 6 :: RInt 4 :: RInt 0 :: RInt 0 :: RInt 0 :: nil))
                 !! 1%positive = Some (RInt 6)) by reflexivity.
  assert (H2 : gens (ref_world (RInt 6 :: RInt 4 :: RInt 0 :: RInt 0 :: RInt 0 :: nil))
                 !! 2%positive = Some (RInt 4)) by reflexivity.
  assert (H3 : gens (ref_world (RInt 6 :: RInt 4 :: RInt 0 :: RInt 0 :: RInt 0 :: nil))
                 !! 3%positive = Some (RInt 0)) by reflexivity.
  assert (H4 : gens (ref_world (RInt 6 :: RInt 4 :: RInt 0 :: RInt 0 :: RInt 0 :: nil))
                 !! 4%positive = Some (RInt 0)) by reflexivity.
  assert (H5 : gens (ref_world (RInt 6 :: RInt 4 :: RInt 0 :: RInt 0 :: RInt 0 :: nil))
                 !! 5%positive = Some (RInt 0)) by reflexivity.
  repeat (split; [assumption|]).
  exact (iegcd_fills_three_slots (G := RefGiac) H1 H2 H3 H4 H5
           ltac:(discriminate) ltac:(discriminate) ltac:(discriminate)
           ltac:(discriminate) ltac:(discriminate) ltac:(discriminate)
           ltac:(discriminate) ltac:(discriminate) ltac:(discriminate)).
Defined.

(** X9.  [giacrs_gen_iabcuv] with live arguments and two distinct live
    output slots fetches and stores the two elements of the library's
    vector one after the other: when the second element cannot be fetched,
    the call returns the error with the first slot already assigned. *)
Theorem iabcuv_stores_in_turn (G : Giac) (a b c u v : loc) (ctx : ctxptr G)
    (w : world G) (x y z : gen G) :
  gens w !! a = Some x -> gens w !! b = Some y -> gens w !! c = Some z ->
  is_Some (gens w !! u) -> is_Some (gens w !! v) -> u <> v ->
  giacrs_gen_iabcuv a b c u v ctx w =
  match iabcuv x y z ctx (giac_state w) with
  | (Returns vec, st) =>
      match gen_at vec 0 with
      | Returns first =>
          match gen_at vec 1 with
          | Returns second =>
              Done NULL (set_gens (insert v second)
                           (set_gens (insert u first) (set_giac_state st w)))
          | Throws e => after_throw e (set_gens (insert u first) (set_giac_state st w))
          end
      | Throws e => after_throw e (set_giac_state st w)
      end
  | (Throws e, st) => after_throw e (set_giac_state st w)
  end.
Proof.
  intros Ha Hb Hc Hu Hv Hne. unfold giacrs_gen_iabcuv.
  destruct (iabcuv x y z ctx (giac_state w)) as [[vec|e] st] eqn:E.
  - pose proof (store_pair_run vec (w := set_giac_state st w) Hu Hv Hne) as Hpair.
    assert (Hblock :
      (let* x := deref a in let* y := deref b in let* z := deref c in
       let* vec := giac_ctx_call (iabcuv x y z ctx) in
       let* v0 := giac_call (gen_at vec 0) in assign u v0 ;;
       let* v1 := giac_call (gen_at vec 1) in assign v v1) w
      = (let* v0 := giac_call (gen_at vec 0) in assign u v0 ;;
         let* v1 := giac_call (gen_at vec 1) in assign v v1) (set_giac_state st w)).
    { unfold bind at 1 2 3 4, deref, giac_ctx_call. rewrite Ha, Hb, Hc, E. reflexivity. }
    rewrite Hpair in Hblock.
    destruct (gen_at vec 0) as [first|e]; [destruct (gen_at vec 1) as [second|e]|].
    + now apply SAFE_VOID_CALL_Done.
    + now apply SAFE_VOID_CALL_Unwinds.
    + now apply SAFE_VOID_CALL_Unwinds.
  - apply SAFE_VOID_CALL_Unwinds.
    unfold bind, deref, giac_ctx_call. rewrite Ha, Hb, Hc, E. reflexivity.
Qed.

(** With the library double whose vectors have two elements, both slots
    are assigned; with the one whose vectors have a single element, the
    second fetch raises and the error comes back with the first slot
    assigned. *)
Lemma iabcuv_stores_in_turn_witness :
  (gens (answering_world 0 2 (6 :: 4 :: 2 :: 0 :: 0 :: nil)) !! 1%positive = Some 6 /\
   gens (answering_world 0 2 (6 :: 4 :: 2 :: 0 :: 0 :: nil)) !! 2%positive = Some 4 /\
   gens (answering_world 0 2 (6 :: 4 :: 2 :: 0 :: 0 :: nil)) !! 3%positive = Some 2 /\
   is_Some (gens (answering_world 0 2 (6 :: 4 :: 2 :: 0 :: 0 :: nil)) !! 4%positive) /\
   is_Some (gens (answering_world 0 2 (6 :: 4 :: 2 :: 0 :: 0 :: nil)) !! 5%positive) /\
   4%positive <> 5%positive /\
   giacrs_gen_iabcuv (G := AnsweringGiac 0 2) 1 2 3 4 5 tt
       (answering_world 0 2 (6 :: 4 :: 2 :: 0 :: 0 :: nil))
     = Done NULL
         (set_gens (insert 5%positive 7)
            (set_gens (insert 4%positive 6)
               (answering_world 0 2 (6 :: 4 :: 2 :: 0 :: 0 :: nil))))) /\
  (gens (answering_world 0 1 (6 :: 4 :: 2 :: 0 :: 0 :: nil)) !! 1%positive = Some 6 /\
   gens (answering_world 0 1 (6 :: 4 :: 2 :: 0 :: 0 :: nil)) !! 2%positive = Some 4 /\
   gens (answering_world 0 1 (6 :: 4 :: 2 :: 0 :: 0 :: nil)) !! 3%positive = Some 2 /\
   is_Some (gens (answering_world 0 1 (6 :: 4 :: 2 :: 0 :: 0 :: nil)) !! 4%positive) /\
   is_Some (gens (answering_world 0 1 (6 :: 4 :: 2 :: 0 :: 0 :: nil)) !! 5%positive) /\
   4%positive <> 5%positive /\
   giacrs_gen_iabcuv (G := AnsweringGiac 0 1) 1 2 3 4 5 tt
       (answering_world 0 1 (6 :: 4 :: 2 :: 0 :: 0 :: nil))
     = Done (Some "Index outside range")
         (set_gens (insert 4%positive 6)
            (answering_world 0 1 (6 :: 4 :: 2 :: 0 :: 0 :: nil)))).
Proof.
  assert (L : forall len h z,
            gens (answering_world 0 len (6 :: 4 :: 2 :: 0 :: 0 :: nil)) !! h = Some z ->
            is_Some (gens (answering_world 0 len (6 :: 4 :: 2 :: 0 :: 0 :: nil)) !! h))
    by (intros len h z E; exists z; exact E).
  assert (N : 4%positive <> 5%positive) by discriminate.
  split.
  - assert (H1 : gens (answering_world 0 2 (6 :: 4 :: 2 :: 0 :: 0 :: nil)) !! 1%positive
                 = Some 6) by reflexivity.
    assert (H2 : gens (answering_world 0 2 (6 :: 4 :: 2 :: 0 :: 0 :: nil)) !! 2%positive
                 = Some 4) by reflexivity.
    assert (H3 : gens (answering_world 0 2 (6 :: 4 :: 2 :: 0 :: 0 :: nil)) !! 3%positive
                 = Some 2) by reflexivity.
    pose proof (L 2 4%positive 0 eq_refl) as H4.
    pose proof (L 2 5%positive 0 eq_refl) as H5.
    repeat (split; [assumption|]).
    exact (iabcuv_stores_in_turn (G := AnsweringGiac 0 2) tt H1 H2 H3 H4 H5 N).
  - assert (H1 : gens (answering_world 0 1 (6 :: 4 :: 2 :: 0 :: 0 :: nil)) !! 1%positive
                 = Some 6) by reflexivity.
    assert (H2 : gens (answering_world 0 1 (6 :: 4 :: 2 :: 0 :: 0 :: nil)) !! 2%positive
                 = Some 4) by reflexivity.
    assert (H3 : gens (answering_world 0 1 (6 :: 4 :: 2 :: 0 :: 0 :: nil)) !! 3%positive
                 = Some 2) by reflexivity.
    pose proof (L 1 4%positive 0 eq_refl) as H4.
    pose proof (L 1 5%positive 0 eq_refl) as H5.
    repeat (split; [assumption|]).
    exact (iabcuv_stores_in_turn (G := AnsweringGiac 0 1) tt H1 H2 H3 H4 H5 N).
Defined.

(** X10.  [giacrs_gen_pa2b2] with a live argument and two distinct live
    output slots does the same with the vector the library returns for
    [p]: the first element goes to the first slot before the second is
    fetched, so an error at the second leaves the first slot assigned. *)
Theorem pa2b2_stores_in_turn (G : Giac) (p a b : loc) (ctx : ctxptr G)
    (w : world G) (x : gen G) :
  gens w !! p = Some x ->
  is_Some (gens w !! a) -> is_Some (gens w !! b) -> a <> b ->
  giacrs_gen_pa2b2 p a b ctx w =
  match pa2b2 x ctx (giac_state w) with
  | (Returns vec, st) =>
      match gen_at vec 0 with
      | Returns first =>
          match gen_at vec 1 with
          | Returns second =>
              Done NULL (set_gens (insert b second)
                           (set_gens (insert a first) (set_giac_state st w)))
          | Throws e => after_throw e (set_gens (insert a first) (set_giac_state st w))
          end
      | Throws e => after_throw e (set_giac_state st w)
      end
  | (Throws e, st) => after_throw e (set_giac_state st w)
  end.
Proof.
  intros Hp Ha Hb Hne. unfold giacrs_gen_pa2b2, unary_ctx.
  destruct (pa2b2 x ctx (giac_state w)) as [[vec|e] st] eqn:E.
  - pose proof (store_pair_run vec (w := set_giac_state st w) Ha Hb Hne) as Hpair.
    assert (Hblock :
      (let* vec := (let* x := deref p in giac_ctx_call (pa2b2 x ctx)) in
       let* v0 := giac_call (gen_at vec 0) in assign a v0 ;;
       let* v1 := giac_call (gen_at vec 1) in assign b v1) w
      = (let* v0 := giac_call (gen_at vec 0) in assign a v0 ;;
         let* v1 := giac_call (gen_at vec 1) in assign b v1) (set_giac_state st w)).
    { unfold bind at 1 2, deref, giac_ctx_call. rewrite Hp, E. reflexivity. }
    rewrite Hpair in Hblock.
    destruct (gen_at vec 0) as [first|e]; [destruct (gen_at vec 1) as [second|e]|].
    + now apply SAFE_VOID_CALL_Done.
    + now apply SAFE_VOID_CALL_Unwinds.
    + now apply SAFE_VOID_CALL_Unwinds.
  - apply SAFE_VOID_CALL_Unwinds.
    unfold bind, deref, giac_ctx_call. rewrite Hp, E. reflexivity.
Qed.

(** The same two runs: a vector of two elements, and one of a single
    element. *)
Lemma pa2b2_stores_in_turn_witness :
  (gens (answering_world 0 2 (5 :: 0 :: 0 :: nil)) !! 1%positive = Some 5 /\
   is_Some (gens (answering_world 0 2 (5 :: 0 :: 0 :: nil)) !! 2%positive) /\
   is_Some (gens (answering_world 0 2 (5 :: 0 :: 0 :: nil)) !! 3%positive) /\
   2%positive <> 3%positive /\
   giacrs_gen_pa2b2 (G := AnsweringGiac 0 2) 1 2 3 tt (answering_world 0 2 (5 :: 0 :: 0 :: nil))
     = Done NULL
         (set_gens (insert 3%positive 6)
            (set_gens (insert 2%positive 5) (answering_world 0 2 (5 :: 0 :: 0 :: nil))))) /\
  (gens (answering_world 0 1 (5 :: 0 :: 0 :: nil)) !! 1%positive = Some 5 /\
   is_Some (gens (answering_world 0 1 (5 :: 0 :: 0 :: nil)) !! 2%positive) /\
   is_Some (gens (answering_world 0 1 (5 :: 0 :: 0 :: nil)) !! 3%positive) /\
   2%positive <> 3%positive /\
   giacrs_gen_pa2b2 (G := AnsweringGiac 0 1) 1 2 3 tt (answering_world 0 1 (5 :: 0 :: 0 :: nil))
     = Done (Some "Index outside range")
         (set_gens (insert 2%positive 5) (answering_world 0 1 (5 :: 0 :: 0 :: nil)))).
Proof.
  assert (L : forall len h z,
            gens (answering_world 0 len (5 :: 0 :: 0 :: nil)) !! h = Some z ->
            is_Some (gens (answering_world 0 len (5 :: 0 :: 0 :: nil)) !! h))
    by (intros len h z E; exists z; exact E).
  assert (N : 2%positive <> 3%positive) by discriminate.
  split.
  - assert (H1 : gens (answering_world 0 2 (5 :: 0 :: 0 :: nil)) !! 1%positive = Some 5)
      by reflexivity.
    pose proof (L 2 2%positive 0 eq_refl) as H2.
    pose proof (L 2 3%positive 0 eq_refl) as H3.
    repeat (split; [assumption|]).
    exact (pa2b2_stores_in_turn (G := AnsweringGiac 0 2) tt H1 H2 H3 N).
  - assert (H1 : gens (answering_world 0 1 (5 :: 0 :: 0 :: nil)) !! 1%positive = Some 5)
      by reflexivity.
    pose proof (L 1 2%positive 0 eq_refl) as H2.
    pose proof (L 1 3%positive 0 eq_refl) as H3.
    repeat (split; [assumption|]).
    exact (pa2b2_stores_in_turn (G := AnsweringGiac 0 1) tt H1 H2 H3 N).
Defined.
